(** * NGSolve mini-workshop notebooks: a shallow embedding

    The notebooks of this repository drive the NGSolve finite element
    library: they assemble sparse matrices, restrict linear solves to
    the free degrees of freedom and run time loops.  This development
    embeds the notebook code (the [TimeStepping] and [TimeSteppingVTK]
    functions and the cell scripts of the parabolic, Dirichlet, surface
    PDE and mean curvature flow notebooks) together with a model of the
    library objects they manipulate.

    Conventions.
    - The entries of vectors and matrices are idealised as exact
      rationals ([Qc], rationals in lowest terms, so that equality of
      vectors is plain equality).
    - How many steps a time loop makes and which of them are sampled
      depends on rounding; the loop control of parabolic.ipynb is
      therefore also given on binary64 numbers ([Module Binary64]).
    - A Python exception is a [Raise] result; a [while] loop is run with
      fuel, [None] meaning that the fuel ran out.
    - Quadrature, basis functions and interpolation are not part of the
      notebooks; they enter as the fields of a [Numerics] record. *)

From Stdlib Require Import String Ascii.
From Stdlib Require Import QArith Qcanon Qround ZArith List Lia Lqa Bool PeanoNat.
From Stdlib Require Floats.
Import ListNotations.

Open Scope Qc_scope.

(** ** Exceptions and results *)

Inductive Exn : Type :=
| ZeroDivisionError   (* Python: division or modulo by zero *)
| SizeError           (* NGSolve: vector or matrix sizes do not fit *)
| SingularError       (* NGSolve: the free-free block cannot be factorised *)
| OverflowError       (* Python: an int or an infinity that does not convert *)
| ValueError.         (* Python: int() of a NaN *)

Inductive Result (A : Type) : Type :=
| Ok (a : A)
| Raise (e : Exn).

Arguments Ok {A} a.
Arguments Raise {A} e.

Definition bind {A B : Type} (r : Result A) (k : A -> Result B) : Result B :=
  match r with
  | Ok a => k a
  | Raise e => Raise e
  end.

Notation "x <- r ;; k" := (bind r (fun x => k))
  (at level 61, r at next level, right associativity).

(** ** BaseVector: dense coefficient vectors *)

Definition BaseVector := list Qc.

Fixpoint zipwith {A B C : Type} (f : A -> B -> C) (u : list A) (v : list B) : list C :=
  match u, v with
  | x :: u', y :: v' => f x y :: zipwith f u' v'
  | _, _ => []
  end.

Definition vzero (n : nat) : BaseVector := repeat 0 n.

(** [c * v] *)
Definition vscale (c : Qc) (v : BaseVector) : BaseVector := map (Qcmult c) v.

(** [u + v]; NGSolve refuses operands of different sizes. *)
Definition vadd (u v : BaseVector) : Result BaseVector :=
  if Nat.eqb (length u) (length v) then Ok (zipwith Qcplus u v) else Raise SizeError.

(** [u - v] *)
Definition vsub (u v : BaseVector) : Result BaseVector :=
  if Nat.eqb (length u) (length v) then Ok (zipwith Qcminus u v) else Raise SizeError.

Definition dot (u v : list Qc) : Qc := fold_right Qcplus 0 (zipwith Qcmult u v).

(** Entry [i] of a vector, [0] past the end. *)
Definition vnth (v : BaseVector) (i : nat) : Qc := nth i v 0.

(** ** SparseMatrix: a fixed sparsity pattern and a value array

    [pattern] lists the (row, column) positions in storage order and
    [values] is the array returned by [AsVector()], one value per
    position. *)

Record SparseMatrix : Type := mkSparse {
  height : nat;
  width : nat;
  symmetric_storage : bool;   (* only the lower triangle is stored *)
  pattern : list (nat * nat);
  values : list Qc
}.

(** [mat.nze] *)
Definition nze (M : SparseMatrix) : nat := length (pattern M).

(** [mat.AsVector()] *)
Definition AsVector (M : SparseMatrix) : BaseVector := values M.

Definition well_stored (M : SparseMatrix) : Prop := length (values M) = nze M.

Fixpoint stored (p : list (nat * nat)) (v : list Qc) (i j : nat) : Qc :=
  match p, v with
  | (r, c) :: p', x :: v' =>
      if Nat.eqb r i && Nat.eqb c j then x else stored p' v' i j
  | _, _ => 0
  end.

(** [mat[i,j]]: the stored value, [0] off the pattern. *)
Definition entry (M : SparseMatrix) (i j : nat) : Qc :=
  if symmetric_storage M && Nat.ltb i j
  then stored (pattern M) (values M) j i
  else stored (pattern M) (values M) i j.

Definition row (M : SparseMatrix) (i : nat) : list Qc :=
  map (entry M i) (seq 0 (width M)).

(** [mat * x] *)
Definition matvec (M : SparseMatrix) (x : BaseVector) : Result BaseVector :=
  if Nat.eqb (width M) (length x)
  then Ok (map (fun i => dot (row M i) x) (seq 0 (height M)))
  else Raise SizeError.

(** [c * mat]: the scaled operator. *)
Definition mscale (c : Qc) (M : SparseMatrix) : SparseMatrix :=
  mkSparse (height M) (width M) (symmetric_storage M) (pattern M) (vscale c (values M)).

(** [mat.CreateMatrix()]: a new matrix of the same format, a copy of
    the pattern and of the values. *)
Definition CreateMatrix (M : SparseMatrix) : SparseMatrix :=
  mkSparse (height M) (width M) (symmetric_storage M) (pattern M) (values M).

(** [mat.AsVector().data = v]: overwrite the value array in place. *)
Definition set_AsVector (M : SparseMatrix) (v : BaseVector) : Result SparseMatrix :=
  if Nat.eqb (length (AsVector M)) (length v)
  then Ok (mkSparse (height M) (width M) (symmetric_storage M) (pattern M) v)
  else Raise SizeError.

(** ** BitArray and restriction to the free dofs *)

Definition BitArray := list bool.

(** Number of set bits. *)
Definition NumSet (mask : BitArray) : nat := length (filter (fun b => b) mask).

(** The entries of [v] at the set bits of [mask]. *)
Fixpoint gather {A : Type} (mask : BitArray) (v : list A) : list A :=
  match mask, v with
  | b :: mask', x :: v' => if b then x :: gather mask' v' else gather mask' v'
  | _, _ => []
  end.

(** The vector with [xs] at the set bits of [mask] and [0] elsewhere. *)
Fixpoint scatter (mask : BitArray) (xs : list Qc) : BaseVector :=
  match mask with
  | [] => []
  | true :: mask' =>
      match xs with
      | x :: xs' => x :: scatter mask' xs'
      | [] => 0 :: scatter mask' []
      end
  | false :: mask' => 0 :: scatter mask' xs
  end.

(** ** Direct solver: elimination with exact pivots

    An equation is a coefficient list with its right-hand side.  The
    solver picks an equation whose leading coefficient is not zero,
    eliminates the leading unknown from the others, solves the smaller
    system and substitutes back.  No pivot means a singular block. *)

Definition Equation : Type := list Qc * Qc.

Definition lead (e : Equation) : Qc := hd 0 (fst e).

Definition is_zero (q : Qc) : bool := if Qc_eq_dec q 0 then true else false.

Fixpoint pick_pivot (eqs : list Equation) : option (Equation * list Equation) :=
  match eqs with
  | [] => None
  | e :: rest =>
      if is_zero (lead e)
      then match pick_pivot rest with
           | Some (p, others) => Some (p, e :: others)
           | None => None
           end
      else Some (e, rest)
  end.

Definition eliminate (p e : Equation) : Equation :=
  let f := lead e / lead p in
  (zipwith (fun a b => a - f * b) (tl (fst e)) (tl (fst p)), snd e - f * snd p).

Fixpoint solve (unknowns : nat) (eqs : list Equation) : option (list Qc) :=
  match unknowns with
  | O => Some []
  | S k =>
      match pick_pivot eqs with
      | None => None
      | Some (p, others) =>
          match solve k (map (eliminate p) others) with
          | None => None
          | Some xs => Some ((snd p - dot (tl (fst p)) xs) / lead p :: xs)
          end
      end
  end.

(** [xs] solves the equation [e]. *)
Definition satisfies (xs : list Qc) (e : Equation) : Prop := dot (fst e) xs = snd e.

(** The system [A_FF x_F = r_F]: rows and columns both restricted to the
    free dofs. *)
Definition free_system (M : SparseMatrix) (freedofs : BitArray) (r : BaseVector)
  : list Equation :=
  gather freedofs
    (map (fun i => (gather freedofs (row M i), vnth r i)) (seq 0 (height M))).

(** ** Inverse(freedofs): the factorisation object

    [mat.Inverse(freedofs)] factorises the free-free block of the matrix
    as it is at that moment and keeps a reference to the matrix;
    [Update()] factorises again from the values the matrix has then.
    [factor_of] holds the values that were factorised last.  The
    Dirichlet tutorial writes the operator as the block matrix with
    the inverse of [A_FF] in the free-free block and zero elsewhere. *)

Record InverseMatrix : Type := mkInverse {
  factor_of : SparseMatrix;
  inv_freedofs : BitArray
}.

(** Modelled from the spec: the library's [Inverse(freedofs=...)] is not
    part of the repository.  The linear solver is to "produce a
    factorization restricted to the free-free block (rows and columns
    both restricted to free dofs)" and it fails "if the free-free block
    is singular". *)
Definition Inverse (M : SparseMatrix) (freedofs : BitArray) : Result InverseMatrix :=
  if Nat.eqb (height M) (width M) && Nat.eqb (length freedofs) (height M)
  then match solve (NumSet freedofs) (free_system M freedofs (vzero (height M))) with
       | Some _ => Ok (mkInverse M freedofs)
       | None => Raise SingularError
       end
  else Raise SizeError.

(** [inv.Update()], where [M] is the matrix the factorisation refers to,
    with its present values. *)
Definition Update (inv : InverseMatrix) (M : SparseMatrix) : Result InverseMatrix :=
  Inverse M (inv_freedofs inv).

(** Modelled from the spec: applying the library's inverse is not part
    of the repository.  It is "solving [A_FF x_F = b_F] for a given
    right-hand-side", and the tutorial's block form puts zero at the
    constrained dofs of [inv * r]. *)
Definition inv_mult (inv : InverseMatrix) (r : BaseVector) : Result BaseVector :=
  if Nat.eqb (length r) (height (factor_of inv))
  then match solve (NumSet (inv_freedofs inv))
                   (free_system (factor_of inv) (inv_freedofs inv) r) with
       | Some xs => Ok (scatter (inv_freedofs inv) xs)
       | None => Raise SingularError
       end
  else Raise SizeError.

(** ** Meshes and finite element spaces

    For a mesh and a polynomial order the library numbers the dofs of
    the H1 space.  [DofTable] records what the notebooks rely on: for
    each dof the named boundary (and, on surfaces, co-dimension two
    boundary) regions it lies on, and the pairs of dofs coupled through
    a common element, in the storage order of the matrix graph. *)

Record DofInfo : Type := mkDof {
  on_boundaries : list string;
  on_bboundaries : list string
}.

Record DofTable : Type := mkDofTable {
  dofs : list DofInfo;
  couplings : list (nat * nat)
}.

Record Mesh : Type := mkMesh {
  mesh_dim : nat;
  GetBoundaries : list string;
  h1_table : nat -> DofTable
}.

Inductive SpaceKind : Type := H1kind | VectorH1kind.

Record FESpace : Type := mkFES {
  kind : SpaceKind;
  ndof : nat;
  FreeDofs : BitArray;      (* [FreeDofs[dof]] is true iff [dof] is free *)
  graph : list (nat * nat)
}.

(** A region pattern such as ["left|right"]: names separated by bars.
    The names are compared literally, as the plain names of the
    notebooks are; the library reads a flag as a regular expression. *)
Fixpoint split_bar (s : string) : list string :=
  match s with
  | EmptyString => [EmptyString]
  | String c s' =>
      if Ascii.eqb c "|"%char then EmptyString :: split_bar s'
      else match split_bar s' with
           | h :: t => String c h :: t
           | [] => [String c EmptyString]
           end
  end.

Definition region_match (flag : option string) (regions : list string) : bool :=
  match flag with
  | None => false
  | Some pat => existsb (fun r => existsb (String.eqb r) (split_bar pat)) regions
  end.

(** A dof is free unless it lies on a region marked by one of the
    flags. *)
Definition is_free (dirichlet dirichlet_bbnd : option string) (d : DofInfo) : bool :=
  negb (region_match dirichlet (on_boundaries d)
        || region_match dirichlet_bbnd (on_bboundaries d)).

(** Modelled from the spec: the library's [H1(mesh, order=...,
    dirichlet=..., dirichlet_bbnd=...)] and [FreeDofs()] are not part of
    the repository.  The space is to give "a total dof count ... and a
    per-dof free/constrained flag", "assigned at construction from
    named-boundary constraint sets"; the tutorial says that the dofs
    marked as not free are those located on the marked regions. *)
Definition H1 (mesh : Mesh) (order : nat) (dirichlet dirichlet_bbnd : option string)
  : FESpace :=
  let T := h1_table mesh order in
  mkFES H1kind
        (length (dofs T))
        (map (is_free dirichlet dirichlet_bbnd) (dofs T))
        (couplings T).

(** [VectorH1(mesh, order=order)]: one copy of the scalar layout per
    space dimension, block after block; no dirichlet flag is given in
    the notebooks. *)
Definition VectorH1 (mesh : Mesh) (order : nat) : FESpace :=
  let scalar := H1 mesh order None None in
  let d := mesh_dim mesh in
  let n := ndof scalar in
  mkFES VectorH1kind
        (d * n)%nat
        (concat (repeat (FreeDofs scalar) d))
        (flat_map (fun a =>
           flat_map (fun rc =>
             map (fun b => (a * n + fst rc, b * n + snd rc)%nat) (seq 0 d))
             (graph scalar))
           (seq 0 d)).

(** The two groups of unknowns. *)
Definition dof_is_free (fes : FESpace) (i : nat) : bool := nth i (FreeDofs fes) false.

Definition free_dofs (fes : FESpace) : list nat :=
  filter (dof_is_free fes) (seq 0 (ndof fes)).

Definition constrained_dofs (fes : FESpace) : list nat :=
  filter (fun i => negb (dof_is_free fes i)) (seq 0 (ndof fes)).

(** ** Symbolic forms

    Trial and test functions are proxies; [grad] and [Trace] select the
    differential operator and its restriction to the surface. *)

Inductive Proxy : Type := TrialFunction | TestFunction.

Inductive DiffOp : Type := OpValue | OpGrad.

Inductive CF : Type :=
| CFnum (c : Qc)
| CFcoord (k : nat)                       (* x, y, z *)
| CFvec2 (a b : CF)
| CFvec3 (a b c : CF)
| CFapp (f : string) (a : CF)             (* sin, exp *)
| CFproxy (p : Proxy) (op : DiffOp) (traced : bool)
| CFadd (a b : CF)
| CFsub (a b : CF)
| CFmul (a b : CF)
| CFneg (a : CF)
| CFinner (a b : CF).                     (* InnerProduct *)

Definition grad (c : CF) : CF :=
  match c with
  | CFproxy p _ t => CFproxy p OpGrad t
  | _ => c
  end.

Definition Trace (c : CF) : CF :=
  match c with
  | CFproxy p op _ => CFproxy p op true
  | _ => c
  end.

(** [fes.TnT()] *)
Definition TnT : CF * CF :=
  (CFproxy TrialFunction OpValue false, CFproxy TestFunction OpValue false).

Inductive VorB : Type := VOL | BND | BBND.

(** [dx], [ds], [ds(deformation=gf)]: the deformation is a reference to
    a GridFunction, read when the form is assembled. *)
Record DifferentialSymbol : Type := mkSymbol {
  vb : VorB;
  deformation : option string
}.

Definition dx : DifferentialSymbol := mkSymbol VOL None.
Definition ds_deformation (gf : string) : DifferentialSymbol := mkSymbol BND (Some gf).

Record Integrator : Type := mkIntegrator {
  integrand : CF;
  symbol : DifferentialSymbol
}.

Record BilinearForm : Type := mkBF {
  bf_space : FESpace;
  bf_symmetric : bool;
  bf_integrators : list Integrator
}.

Record LinearForm : Type := mkLF {
  lf_space : FESpace;
  lf_integrators : list Integrator
}.

(** [a += integrand * symbol] for an integrand the library accepts, as
    those of the notebooks' forms assembled below are. *)
Definition bf_add (a : BilinearForm) (i : Integrator) : BilinearForm :=
  mkBF (bf_space a) (bf_symmetric a) (bf_integrators a ++ [i]).

(** ** Assembly

    The numerical integration itself is the library's: [Numerics]
    gives, for an integrand on a geometry (the mesh, moved by a
    deformation vector when there is one), the value of the integral on
    a pair of basis functions, or on one basis function, and the
    coefficients of the interpolant of a function. *)

Record Numerics : Type := mkNumerics {
  bf_integral : FESpace -> CF -> VorB -> option BaseVector -> nat -> nat -> Qc;
  lf_integral : FESpace -> CF -> VorB -> option BaseVector -> nat -> Qc;
  interpolate : FESpace -> CF -> nat -> Qc
}.

(** The current vectors of the GridFunctions, by name. *)
Definition Env : Type := string -> BaseVector.

Definition geometry (env : Env) (i : Integrator) : option BaseVector :=
  match deformation (symbol i) with
  | Some gf => Some (env gf)
  | None => None
  end.

Definition qsum (l : list Qc) : Qc := fold_right Qcplus 0 l.

(** Modelled from the spec: the library's assembly is not part of the
    repository.  The assembler is to "accumulate the local dense block
    into the global sparse structure by summation at matching (global
    row, global col) indices", and two matrices "produced from the same
    FunctionSpace" have an "identical sparsity pattern": the pattern is
    the graph of the space, whatever the [symmetric] flag of the form,
    and each value is the sum of the integrals of the form's
    integrators.  [a.Assemble()], giving [a.mat]. *)
Definition Assemble (N : Numerics) (env : Env) (a : BilinearForm) : Result SparseMatrix :=
  let fes := bf_space a in
  Ok (mkSparse (ndof fes) (ndof fes) false (graph fes)
        (map (fun rc =>
                qsum (map (fun i => bf_integral N fes (integrand i) (vb (symbol i))
                                      (geometry env i) (fst rc) (snd rc))
                          (bf_integrators a)))
             (graph fes))).

(** Modelled from the spec: the same accumulation for a right-hand
    side, one entry per dof.  [f.Assemble()], giving [f.vec]. *)
Definition AssembleLF (N : Numerics) (env : Env) (f : LinearForm) : Result BaseVector :=
  let fes := lf_space f in
  Ok (map (fun k =>
             qsum (map (fun i => lf_integral N fes (integrand i) (vb (symbol i))
                                   (geometry env i) k)
                       (lf_integrators f)))
          (seq 0 (ndof fes))).

(** [gfu.Set(cf)]: the interpolant on the whole space. *)
Definition Set_all (N : Numerics) (fes : FESpace) (cf : CF) : BaseVector :=
  map (interpolate N fes cf) (seq 0 (ndof fes)).

(** [gfu.Set(cf, BND)] on a fresh GridFunction: the interpolant on the
    dirichlet part of the boundary, extended by zero. *)
Definition Set_BND (N : Numerics) (fes : FESpace) (cf : CF) : BaseVector :=
  zipwith (fun (free : bool) k => if free then 0 else interpolate N fes cf k)
          (FreeDofs fes) (seq 0 (ndof fes)).

(** ** parabolic.ipynb: the matrix of the implicit Euler method

<<
mstar = m.mat.CreateMatrix()
mstar.AsVector().data = m.mat.AsVector() + dt * a.mat.AsVector()
>> *)
Definition build_mstar (m a : SparseMatrix) (dt : Qc) : Result SparseMatrix :=
  let mstar := CreateMatrix m in
  v <- vadd (AsVector m) (vscale dt (AsVector a)) ;;
  set_AsVector mstar v.

(** ** Generic [while] loop with fuel *)

Fixpoint while {St : Type} (fuel : nat) (cond : St -> bool) (body : St -> Result St)
  (s : St) : option (Result St) :=
  match fuel with
  | O => None
  | S k =>
      if cond s
      then match body s with
           | Ok s' => while k cond body s'
           | Raise e => Some (Raise e)
           end
      else Some (Ok s)
  end.

Definition Qcltb (x y : Qc) : bool :=
  match x ?= y with
  | Lt => true
  | _ => false
  end.

(** A Python int as a float. *)
Definition of_int (z : Z) : Qc := Q2Qc (inject_Z z).

Definition half : Qc := Q2Qc (1 # 2).

(** ** parabolic.ipynb: the forms *)

Definition coord_x : CF := CFcoord 0.
Definition coord_y : CF := CFcoord 1.
Definition coord_z : CF := CFcoord 2.

(** [fes = H1(mesh, order=2, dirichlet="bottom|right|left|top")] *)
Definition parabolic_fes (mesh : Mesh) : FESpace :=
  H1 mesh 2 (Some "bottom|right|left|top"%string) None.

(** [b = CoefficientFunction((2*y*(1-x*x),-2*x*(1-y*y)))] *)
Definition wind : CF :=
  CFvec2 (CFmul (CFmul (CFnum (of_int 2)) coord_y)
                (CFsub (CFnum 1) (CFmul coord_x coord_x)))
         (CFmul (CFmul (CFnum (of_int (-2))) coord_x)
                (CFsub (CFnum 1) (CFmul coord_y coord_y))).

(** [a = BilinearForm(fes, symmetric=False)]
    [a += 0.01*grad(u)*grad(v)*dx + b*grad(u)*v*dx] *)
Definition a_form (fes : FESpace) : BilinearForm :=
  let (u, v) := TnT in
  bf_add (bf_add (mkBF fes false [])
            (mkIntegrator (CFmul (CFmul (CFnum (Q2Qc (1 # 100))) (grad u)) (grad v)) dx))
         (mkIntegrator (CFmul (CFmul wind (grad u)) v) dx).

(** [m = BilinearForm(fes, symmetric=False)]; [m += u*v*dx] *)
Definition m_form (fes : FESpace) : BilinearForm :=
  let (u, v) := TnT in
  bf_add (mkBF fes false []) (mkIntegrator (CFmul u v) dx).

(** No GridFunction is referenced by the forms of this notebook. *)
Definition no_gf : Env := fun _ => [].

(** The cells from the assembly of [a] and [m] to [invmstar]:
<<
a.Assemble(); m.Assemble()
mstar = m.mat.CreateMatrix()
mstar.AsVector().data = m.mat.AsVector() + dt * a.mat.AsVector()
invmstar = mstar.Inverse(freedofs=fes.FreeDofs())
>> *)
Definition assemble_mstar (N : Numerics) (fes : FESpace) (dt : Qc)
  : Result (SparseMatrix * SparseMatrix * SparseMatrix) :=
  a_mat <- Assemble N no_gf (a_form fes) ;;
  m_mat <- Assemble N no_gf (m_form fes) ;;
  mstar <- build_mstar m_mat a_mat dt ;;
  Ok (a_mat, m_mat, mstar).

(** ** parabolic.ipynb: the time loops

    The functions read the notebook globals [dt], [f], [a] and [gfu];
    [gfu] is updated in place.  [invmstar] is any operator that can be
    applied to a vector.  Here [dt] and the times are real values; the
    same loops with their binary64 control follow in [Module Binary64]. *)

Definition Operator : Type := BaseVector -> Result BaseVector.

Record Globals : Type := mkGlobals {
  dt : Qc;
  f_vec : BaseVector;        (* f.vec *)
  a_mat : SparseMatrix;      (* a.mat *)
  gfu_space : FESpace        (* gfu.space *)
}.

Inductive Event : Type :=
| EvSampleInt (sample_int : Z)           (* print(f"sample_int = {sample_int}") *)
| EvPrint (t : Qc)                        (* print("\r",time,end="") *)
| EvRedraw                               (* scene.Redraw() *)
| EvVtk (t : Qc) (snapshot : BaseVector). (* vtk.Do(time) *)

Record TSState : Type := mkTS {
  gfu_vec : BaseVector;      (* gfu.vec *)
  cnt : Z;
  time : Qc;
  gfut : list BaseVector;    (* the components of the multidim gfut *)
  output : list Event
}.

(** [sample_int = int(floor(tend / dt / nsamples)+1)] *)
Definition sample_interval (G : Globals) (tend : Qc) (nsamples : Z) : Result Z :=
  if is_zero (dt G) then Raise ZeroDivisionError
  else if Z.eqb nsamples 0 then Raise ZeroDivisionError
  else Ok (Qfloor (this (tend / dt G / of_int nsamples)%Qc) + 1)%Z.

(** The two lines shared by all the loops:
<<
res = dt * f.vec - dt * a.mat * gfu.vec
gfu.vec.data += invmstar * res
>>
    [dt * a.mat * gfu.vec] is Python's [(dt * a.mat) * gfu.vec]. *)
Definition euler_update (G : Globals) (invmstar : Operator) (u : BaseVector)
  : Result BaseVector :=
  Au <- matvec (mscale (dt G) (a_mat G)) u ;;
  res <- vsub (vscale (dt G) (f_vec G)) Au ;;
  delta <- invmstar res ;;
  vadd u delta.

(** [while time < tend - 0.5 * dt] *)
Definition guard (G : Globals) (tend : Qc) (s : TSState) : bool :=
  Qcltb (time s) (tend - half * dt G).


(** [cnt % sample_int == 0] *)
Definition sampled (c sample_int : Z) : Result bool :=
  if Z.eqb sample_int 0 then Raise ZeroDivisionError
  else Ok (Z.eqb (c mod sample_int) 0).

(** The body of the loop of [TimeStepping]:
<<
res = dt * f.vec - dt * a.mat * gfu.vec
gfu.vec.data += invmstar * res
print("\r",time,end="")
scene.Redraw()
if cnt % sample_int == 0:
    gfut.AddMultiDimComponent(gfu.vec)
cnt += 1; time = cnt * dt
>> *)
Definition TimeStepping_body (G : Globals) (invmstar : Operator) (sample_int : Z)
  (s : TSState) : Result TSState :=
  u <- euler_update G invmstar (gfu_vec s) ;;
  let out := output s ++ [EvPrint (time s); EvRedraw] in
  keep <- sampled (cnt s) sample_int ;;
  let gfut' := if keep then gfut s ++ [u] else gfut s in
  let cnt' := (cnt s + 1)%Z in
  Ok (mkTS u cnt' (of_int cnt' * dt G) gfut' out).

(** [TimeStepping(invmstar, initial_cond, t0, tend, nsamples)], called
    with [gfu.vec = gfu0]:
<<
if initial_cond:
    gfu.Set(initial_cond)
cnt = 0; time = t0
sample_int = int(floor(tend / dt / nsamples)+1)
print(f"sample_int = {sample_int}")
gfut = GridFunction(gfu.space,multidim=0)
gfut.AddMultiDimComponent(gfu.vec)
while time < tend - 0.5 * dt:
    ...
return gfut
>>
    The final state holds the returned [gfut] and the global [gfu]. *)
Definition TimeStepping (N : Numerics) (G : Globals) (invmstar : Operator)
  (initial_cond : option CF) (t0 tend : Qc) (nsamples : Z)
  (gfu0 : BaseVector) (fuel : nat) : option (Result TSState) :=
  let u0 := match initial_cond with
            | Some cf => Set_all N (gfu_space G) cf
            | None => gfu0
            end in
  match sample_interval G tend nsamples with
  | Raise e => Some (Raise e)
  | Ok sample_int =>
      while fuel (guard G tend) (TimeStepping_body G invmstar sample_int)
            (mkTS u0 0 t0 [u0] [EvSampleInt sample_int])
  end.

(** The body of the loop of [TimeSteppingVTK]:
<<
cnt += 1; time = cnt * dt
res = dt * f.vec - dt * a.mat * gfu.vec
gfu.vec.data += invmstar * res
print("\r",time,end="")
if cnt % sample_int == 0:
    vtk.Do(time)
>> *)
Definition TimeSteppingVTK_body (G : Globals) (invmstar : Operator) (sample_int : Z)
  (s : TSState) : Result TSState :=
  let cnt' := (cnt s + 1)%Z in
  let time' := of_int cnt' * dt G in
  u <- euler_update G invmstar (gfu_vec s) ;;
  let out := output s ++ [EvPrint time'] in
  keep <- sampled cnt' sample_int ;;
  let out' := if keep then out ++ [EvVtk time' u] else out in
  Ok (mkTS u cnt' time' (gfut s) out').

(** [TimeSteppingVTK(invmstar, initial_cond, t0, tend, nsamples, filename)]:
<<
if initial_cond:
    gfu.Set(initial_cond)
cnt = 0; time = t0
sample_int = int(floor(tend / dt / nsamples)+1)
vtk = VTKOutput(mesh, coefs=[gfu], names=["uh"],filename=filename,subdivision=2)
vtk.Do(time)
while time < tend - 0.5 * dt:
    ...
return gfu
>> *)
Definition TimeSteppingVTK (N : Numerics) (G : Globals) (invmstar : Operator)
  (initial_cond : option CF) (t0 tend : Qc) (nsamples : Z)
  (gfu0 : BaseVector) (fuel : nat) : option (Result TSState) :=
  let u0 := match initial_cond with
            | Some cf => Set_all N (gfu_space G) cf
            | None => gfu0
            end in
  match sample_interval G tend nsamples with
  | Raise e => Some (Raise e)
  | Ok sample_int =>
      while fuel (guard G tend) (TimeSteppingVTK_body G invmstar sample_int)
            (mkTS u0 0 t0 [] [EvVtk t0 u0])
  end.

(** The defaults: [t0 = 0], [tend = 2], [nsamples = 10] and [100]. *)
Definition default_tend : Qc := of_int 2.
Definition default_nsamples : Z := 10.

(** The cell with VTK output at every step:
<<
time = 0.0; tend = 2; cnt = 0
vtk.Do(time)
while time < tend - 0.5 * dt:
    cnt += 1; time = cnt * dt
    res = dt * f.vec - dt * a.mat * gfu.vec
    gfu.vec.data += invmstar * res
    print("\r",time,end="")
    vtk.Do(time)
>> *)
Definition vtk_cell_body (G : Globals) (invmstar : Operator) (s : TSState)
  : Result TSState :=
  let cnt' := (cnt s + 1)%Z in
  let time' := of_int cnt' * dt G in
  u <- euler_update G invmstar (gfu_vec s) ;;
  Ok (mkTS u cnt' time' (gfut s) (output s ++ [EvPrint time'; EvVtk time' u])).

Definition vtk_cell (G : Globals) (invmstar : Operator) (u0 : BaseVector) (fuel : nat)
  : option (Result TSState) :=
  while fuel (guard G default_tend) (vtk_cell_body G invmstar)
        (mkTS u0 0 0 [] [EvVtk 0 u0]).

(** The number of snapshots written by [vtk.Do] in an output. *)
Definition is_snapshot (e : Event) : bool :=
  match e with
  | EvVtk _ _ => true
  | _ => false
  end.

Definition snapshots (out : list Event) : nat := length (filter is_snapshot out).




(** ** parabolic.ipynb: the loop control in binary64

    Which iterations run is decided by rounded values: [dt] is a float,
    [time = cnt * dt] and [tend - 0.5 * dt] are binary64 products and
    differences, and [sample_int] comes from two float divisions.  The
    module below gives the same functions with this arithmetic, on the
    kernel's binary64 numbers; the vectors stay idealised, with the
    real value of [dt] as their scalar. *)

Module Binary64.
Import PrimFloat SpecFloat FloatOps.

(** A Python number: an int or a float. *)
Inductive Num : Type :=
| PyInt (z : Z)
| PyFloat (x : float).

(** The binary64 value nearest to an integer, ties to even. *)
Definition of_Z (z : Z) : float := SF2Prim (binary_normalize prec emax z 0 false).

(** The first magnitude that rounds to an infinity. *)
Definition int_limit : Z := 2 ^ 1024 - 2 ^ 970.

(** An int operand of a float operation is converted first; Python
    raises OverflowError for an int too large for a float. *)
Definition int_to_float (z : Z) : Result float :=
  if Z.leb int_limit (Z.abs z) then Raise OverflowError else Ok (of_Z z).

Definition to_float (n : Num) : Result float :=
  match n with
  | PyInt z => int_to_float z
  | PyFloat x => Ok x
  end.

(** [a / b] on floats *)
Definition truediv (a b : float) : Result float :=
  if PrimFloat.eqb b 0%float then Raise ZeroDivisionError else Ok (a / b)%float.

(** The integer [m * 2^e] rounded down. *)
Definition floor_scaled (m e : Z) : Z :=
  if Z.leb 0 e then m * 2 ^ e else m / 2 ^ (- e).

(** [floor(x)] of ngsolve on a float: the C function, with a float
    result. *)
Definition floor (x : float) : float :=
  match Prim2SF x with
  | S754_finite s m e => of_Z (floor_scaled (if s then Z.neg m else Z.pos m) e)
  | _ => x
  end.

(** [int(x)] on a float: the integer part. *)
Definition float_to_int (x : float) : Result Z :=
  match Prim2SF x with
  | S754_zero _ => Ok 0%Z
  | S754_finite s m e =>
      let a := floor_scaled (Z.pos m) e in
      Ok (if s then - a else a)%Z
  | S754_infinity _ => Raise OverflowError
  | S754_nan => Raise ValueError
  end.

(** [t < b] for a float [b]: Python compares an int with a float by
    value, without converting it. *)
Definition lt (t : Num) (b : float) : bool :=
  match t with
  | PyFloat x => PrimFloat.ltb x b
  | PyInt z =>
      match Prim2SF b with
      | S754_nan => false
      | S754_infinity s => negb s
      | S754_zero _ => Z.ltb z 0
      | S754_finite s m e =>
          let v := if s then Z.neg m else Z.pos m in
          if Z.leb 0 e then Z.ltb z (v * 2 ^ e) else Z.ltb (z * 2 ^ (- e)) v
      end
  end.

(** The real number a finite float stands for; the idealised vectors
    have no counterpart of an infinite or undefined scalar. *)
Definition real_of (x : float) : Qc :=
  match Prim2SF x with
  | S754_finite s m e =>
      Q2Qc (inject_Z (if s then Z.neg m else Z.pos m) * Qpower (2 # 1) e)
  | _ => 0
  end.

(** The notebook globals, with [dt] as the float it is. *)
Record Globals : Type := mkG {
  dt : float;
  f_vec : BaseVector;        (* f.vec *)
  a_mat : SparseMatrix;      (* a.mat *)
  gfu_space : FESpace        (* gfu.space *)
}.

(** The globals as the vector arithmetic sees them. *)
Definition idealised (G : Globals) :=
  mkGlobals (real_of (dt G)) (f_vec G) (a_mat G) (gfu_space G).

Inductive Event : Type :=
| EvSampleInt (sample_int : Z)           (* print(f"sample_int = {sample_int}") *)
| EvPrint (t : Num)                       (* print("\r",time,end="") *)
| EvRedraw                               (* scene.Redraw() *)
| EvVtk (t : Num) (snapshot : BaseVector). (* vtk.Do(time) *)

Record TSState : Type := mkTS {
  gfu_vec : BaseVector;      (* gfu.vec *)
  cnt : Z;
  time : Num;
  gfut : list BaseVector;    (* the components of the multidim gfut *)
  output : list Event
}.

(** [sample_int = int(floor(tend / dt / nsamples)+1)], where [nsamples]
    is an int. *)
Definition sample_interval (d : float) (tend : Num) (nsamples : Z) : Result Z :=
  t <- to_float tend ;;
  q <- truediv t d ;;
  n <- int_to_float nsamples ;;
  r <- truediv q n ;;
  float_to_int (floor r + 1)%float.

(** [tend - 0.5 * dt] *)
Definition bound (d tend : float) : float := (tend - 0.5 * d)%float.

(** [cnt * dt] for a counter that converts *)
Definition grid (d : float) (c : Z) : float := (of_Z c * d)%float.

(** [time = cnt * dt] *)
Definition mul_int (c : Z) (d : float) : Result float :=
  x <- int_to_float c ;;
  Ok (x * d)%float.

(** [while time < tend - 0.5 * dt], with [tend] already a float. *)
Definition guard (d tend : float) (s : TSState) : bool :=
  lt (time s) (bound d tend).

(** The body of the loop of [TimeStepping]. *)
Definition TimeStepping_body (G : Globals) (invmstar : Operator) (sample_int : Z)
  (s : TSState) : Result TSState :=
  u <- euler_update (idealised G) invmstar (gfu_vec s) ;;
  let out := output s ++ [EvPrint (time s); EvRedraw] in
  keep <- sampled (cnt s) sample_int ;;
  let gfut' := if keep then gfut s ++ [u] else gfut s in
  let cnt' := (cnt s + 1)%Z in
  time' <- mul_int cnt' (dt G) ;;
  Ok (mkTS u cnt' (PyFloat time') gfut' out).

(** [TimeStepping(invmstar, initial_cond, t0, tend, nsamples)].  The
    conversion of an int [tend] has succeeded in the line of
    [sample_int] when the loop test needs it. *)
Definition TimeStepping (N : Numerics) (G : Globals) (invmstar : Operator)
  (initial_cond : option CF) (t0 tend : Num) (nsamples : Z)
  (gfu0 : BaseVector) (fuel : nat) : option (Result TSState) :=
  let u0 := match initial_cond with
            | Some cf => Set_all N (gfu_space G) cf
            | None => gfu0
            end in
  match sample_interval (dt G) tend nsamples with
  | Raise e => Some (Raise e)
  | Ok sample_int =>
      match to_float tend with
      | Raise e => Some (Raise e)
      | Ok tend_f =>
          while fuel (guard (dt G) tend_f) (TimeStepping_body G invmstar sample_int)
                (mkTS u0 0 t0 [u0] [EvSampleInt sample_int])
      end
  end.

(** The body of the loop of [TimeSteppingVTK]. *)
Definition TimeSteppingVTK_body (G : Globals) (invmstar : Operator) (sample_int : Z)
  (s : TSState) : Result TSState :=
  let cnt' := (cnt s + 1)%Z in
  time' <- mul_int cnt' (dt G) ;;
  u <- euler_update (idealised G) invmstar (gfu_vec s) ;;
  let out := output s ++ [EvPrint (PyFloat time')] in
  keep <- sampled cnt' sample_int ;;
  let out' := if keep then out ++ [EvVtk (PyFloat time') u] else out in
  Ok (mkTS u cnt' (PyFloat time') (gfut s) out').

(** [TimeSteppingVTK(invmstar, initial_cond, t0, tend, nsamples, filename)] *)
Definition TimeSteppingVTK (N : Numerics) (G : Globals) (invmstar : Operator)
  (initial_cond : option CF) (t0 tend : Num) (nsamples : Z)
  (gfu0 : BaseVector) (fuel : nat) : option (Result TSState) :=
  let u0 := match initial_cond with
            | Some cf => Set_all N (gfu_space G) cf
            | None => gfu0
            end in
  match sample_interval (dt G) tend nsamples with
  | Raise e => Some (Raise e)
  | Ok sample_int =>
      match to_float tend with
      | Raise e => Some (Raise e)
      | Ok tend_f =>
          while fuel (guard (dt G) tend_f) (TimeSteppingVTK_body G invmstar sample_int)
                (mkTS u0 0 t0 [] [EvVtk t0 u0])
      end
  end.

(** The cell with VTK output at every step: [time = 0.0], [tend = 2]. *)
Definition vtk_cell_body (G : Globals) (invmstar : Operator) (s : TSState)
  : Result TSState :=
  let cnt' := (cnt s + 1)%Z in
  time' <- mul_int cnt' (dt G) ;;
  u <- euler_update (idealised G) invmstar (gfu_vec s) ;;
  Ok (mkTS u cnt' (PyFloat time') (gfut s)
        (output s ++ [EvPrint (PyFloat time'); EvVtk (PyFloat time') u])).

(** The float nearest to the fraction [n/d] of two small ints: what a
    decimal literal such as [0.001] denotes. *)
Definition ratio (n d : Z) : float := (of_Z n / of_Z d)%float.

(** [tend = 2] where a float is needed *)
Definition two : float := 2%float.

Definition vtk_cell (G : Globals) (invmstar : Operator) (u0 : BaseVector) (fuel : nat)
  : option (Result TSState) :=
  while fuel (guard (dt G) two) (vtk_cell_body G invmstar)
        (mkTS u0 0 (PyFloat 0%float) [] [EvVtk (PyFloat 0%float) u0]).

Definition is_snapshot (e : Event) : bool :=
  match e with
  | EvVtk _ _ => true
  | _ => false
  end.

Definition snapshots (out : list Event) : nat := length (filter is_snapshot out).

End Binary64.

(** ** Dirichlet tutorial: solving for the free dofs *)

(** [fes = H1(mesh, order=2, dirichlet="left|right")] and
    [fs2 = H1(mesh, order=2)] *)
Definition dirichlet_fes (mesh : Mesh) : FESpace :=
  H1 mesh 2 (Some "left|right"%string) None.

Definition fs2 (mesh : Mesh) : FESpace := H1 mesh 2 None None.

(** [g = sin(y)] *)
Definition g : CF := CFapp "sin" coord_y.

(** [a = BilinearForm(grad(u)*grad(v)*dx)] *)
Definition laplace_form (fes : FESpace) : BilinearForm :=
  let (u, v) := TnT in
  mkBF fes false [mkIntegrator (CFmul (grad u) (grad v)) dx].

(** [f = LinearForm(1*v*dx)] *)
Definition unit_source (fes : FESpace) : LinearForm :=
  let (u, v) := TnT in
  mkLF fes [mkIntegrator (CFmul (CFnum 1) v) dx].

(**
<<
r = f.vec - a.mat * gfu.vec
gfu.vec.data += a.mat.Inverse(freedofs=fes.FreeDofs()) * r
>>
    The same two steps end the inhomogeneous Dirichlet cell of
    surface_pdes.ipynb. *)
Definition solve_free (A : SparseMatrix) (freedofs : BitArray) (f gfu : BaseVector)
  : Result BaseVector :=
  Au <- matvec A gfu ;;
  r <- vsub f Au ;;
  inv <- Inverse A freedofs ;;
  delta <- inv_mult inv r ;;
  vadd gfu delta.

(** From [gfu.Set(g, BND)] to the solution; the result pairs the
    extension [u_D] with the final [gfu.vec]. *)
Definition dirichlet_tutorial (N : Numerics) (mesh : Mesh)
  : Result (BaseVector * BaseVector) :=
  let fes := dirichlet_fes mesh in
  let uD := Set_BND N fes g in
  A <- Assemble N no_gf (laplace_form fes) ;;
  f <- AssembleLF N no_gf (unit_source fes) ;;
  u <- solve_free A (FreeDofs fes) f uD ;;
  Ok (uD, u).

(** ** surface_pdes.ipynb *)



(** [gfu.vec.data = a.mat.Inverse(fes.FreeDofs())*f.vec]: the solve
    with homogeneous data, written into a fresh GridFunction. *)
Definition direct_solve (A : SparseMatrix) (freedofs : BitArray) (f : BaseVector)
  : Result BaseVector :=
  inv <- Inverse A freedofs ;;
  inv_mult inv f.







(** *** The Poisson tutorial at the end of surface_pdes.ipynb *)

(** [V = H1(mesh, order=2, dirichlet="bottom|right|top|left")] *)
Definition poisson_fes (mesh : Mesh) : FESpace :=
  H1 mesh 2 (Some "bottom|right|top|left"%string) None.





(** ** Mean curvature flow notebook (Dziuk's method) *)

Definition identity_cf : CF := CFvec3 coord_x coord_y coord_z.

(** [M += (X*Y + tau*InnerProduct(grad(X).Trace(), grad(Y).Trace()))*ds(deformation=dXh)] *)
Definition M_form (V : FESpace) (tau : Qc) : BilinearForm :=
  let (X, Y) := TnT in
  bf_add (mkBF V false [])
         (mkIntegrator
            (CFadd (CFmul X Y)
                   (CFmul (CFnum tau) (CFinner (Trace (grad X)) (Trace (grad Y)))))
            (ds_deformation "dXh")).

(** [l += CF((x,y,z))*Y*ds(deformation=dXh)] *)
Definition l_form (V : FESpace) : LinearForm :=
  let (X, Y) := TnT in
  mkLF V [mkIntegrator (CFmul identity_cf Y) (ds_deformation "dXh")].

Inductive MCFEvent : Type :=
| McPrint (t : Qc)
| McAssembleM      (* M.Assemble() *)
| McAssembleL      (* l.Assemble() *)
| McUpdate         (* Minv.Update() *)
| McSolve          (* Xh.vec.data = Minv*l.vec *)
| McDeform         (* dXh.vec.data = Xh.vec - Idh.vec *)
| McRedraw.        (* scene.Redraw() *)

Record MCFState : Type := mkMCF {
  mc_i : Z;
  mc_t : Qc;
  M_mat : SparseMatrix;     (* M.mat *)
  l_vec : BaseVector;       (* l.vec *)
  Minv : InverseMatrix;
  Xh : BaseVector;          (* Xh.vec *)
  dXh : BaseVector;         (* dXh.vec *)
  Idh : BaseVector;         (* Idh.vec *)
  mc_trace : list MCFEvent
}.

(** The GridFunctions of the notebook as the forms see them. *)
Definition mcf_env (s : MCFState) : Env :=
  fun name =>
    if String.eqb name "dXh" then dXh s
    else if String.eqb name "Xh" then Xh s
    else if String.eqb name "Idh" then Idh s
    else [].

(** The cells before the loop. *)
Definition mcf_init (N : Numerics) (mesh : Mesh) (order_p : nat) (tau : Qc)
  : Result MCFState :=
  let V := VectorH1 mesh order_p in
  let dX0 := vzero (ndof V) in
  let Id0 := Set_all N V identity_cf in
  let X0 := Set_all N V identity_cf in
  let env0 : Env := fun name => if String.eqb name "dXh" then dX0 else [] in
  M0 <- Assemble N env0 (M_form V tau) ;;
  Minv0 <- Inverse M0 (FreeDofs V) ;;
  l0 <- AssembleLF N env0 (l_form V) ;;
  Ok (mkMCF 0 0 M0 l0 Minv0 X0 dX0 Id0 []).

Definition Qcleb (x y : Qc) : bool := negb (Qcltb y x).

(** [while t <= Tend-tau] *)
Definition mcf_guard (Tend tau : Qc) (s : MCFState) : bool :=
  Qcleb (mc_t s) (Tend - tau).

(**
<<
print ("\rt=", t, end="")
M.Assemble()
l.Assemble()
Minv.Update()
Xh.vec.data = Minv*l.vec
dXh.vec.data = Xh.vec - Idh.vec
if i % 10 == 0:
    scene.Redraw()
t += tau
i += 1
>>
    [t] is the real value of the time. *)
Definition mcf_body (N : Numerics) (V : FESpace) (tau : Qc) (s : MCFState)
  : Result MCFState :=
  M' <- Assemble N (mcf_env s) (M_form V tau) ;;
  l' <- AssembleLF N (mcf_env s) (l_form V) ;;
  Minv' <- Update (Minv s) M' ;;
  X' <- inv_mult Minv' l' ;;
  dX' <- vsub X' (Idh s) ;;
  let events := [McPrint (mc_t s); McAssembleM; McAssembleL; McUpdate; McSolve; McDeform]
                ++ (if Z.eqb (mc_i s mod 10) 0 then [McRedraw] else []) in
  Ok (mkMCF (mc_i s + 1)%Z (mc_t s + tau) M' l' Minv' X' dX' (Idh s)
            (mc_trace s ++ events)).

Definition mcf_loop (N : Numerics) (V : FESpace) (Tend tau : Qc) (fuel : nat)
  (s : MCFState) : option (Result MCFState) :=
  while fuel (mcf_guard Tend tau) (mcf_body N V tau) s.

(** The states the notebook goes through: the one built by the cells
    before the loop, and those the loop body makes of them. *)
Inductive mcf_reachable (N : Numerics) (mesh : Mesh) (order_p : nat) (Tend tau : Qc)
  : MCFState -> Prop :=
| reach_init s :
    mcf_init N mesh order_p tau = Ok s ->
    mcf_reachable N mesh order_p Tend tau s
| reach_step s s' :
    mcf_reachable N mesh order_p Tend tau s ->
    mcf_guard Tend tau s = true ->
    mcf_body N (VectorH1 mesh order_p) tau s = Ok s' ->
    mcf_reachable N mesh order_p Tend tau s'.

(** Reading a trace: a changed deformation makes the matrix, the
    right-hand side and the factorisation stale; assembling refreshes
    the matrix (and makes the factorisation stale) or the right-hand
    side; [Update] refreshes the factorisation if the matrix is fresh.
    Every solve must find all three fresh. *)
Fixpoint fresh_at_solve (fresh_M fresh_l fresh_inv : bool) (tr : list MCFEvent) : bool :=
  match tr with
  | [] => true
  | McAssembleM :: tr' => fresh_at_solve true fresh_l false tr'
  | McAssembleL :: tr' => fresh_at_solve fresh_M true fresh_inv tr'
  | McUpdate :: tr' => fresh_at_solve fresh_M fresh_l fresh_M tr'
  | McSolve :: tr' =>
      fresh_M && fresh_l && fresh_inv && fresh_at_solve fresh_M fresh_l fresh_inv tr'
  | McDeform :: tr' => fresh_at_solve false false false tr'
  | McPrint _ :: tr' | McRedraw :: tr' => fresh_at_solve fresh_M fresh_l fresh_inv tr'
  end.

(** ** A small concrete instance

    Three dofs on a line, the two end points on the boundary regions
    ["left"] and ["right"], and linear elements of size one half. *)

Definition toy_table : DofTable :=
  mkDofTable
    [mkDof ["left"%string] []; mkDof [] []; mkDof ["right"%string] []]
    [(0, 0); (0, 1); (1, 0); (1, 1); (1, 2); (2, 1); (2, 2)]%nat.

Definition toy_mesh : Mesh :=
  mkMesh 1 ["left"%string; "right"%string] (fun _ => toy_table).

Fixpoint uses_grad (c : CF) : bool :=
  match c with
  | CFnum _ | CFcoord _ => false
  | CFproxy _ OpGrad _ => true
  | CFproxy _ OpValue _ => false
  | CFapp _ a | CFneg a => uses_grad a
  | CFvec2 a b | CFadd a b | CFsub a b | CFmul a b | CFinner a b =>
      uses_grad a || uses_grad b
  | CFvec3 a b c => uses_grad a || uses_grad b || uses_grad c
  end.

Definition toy_mass (i j : nat) : Qc :=
  if Nat.eqb i j then (if Nat.eqb i 1 then Q2Qc (1 # 3) else Q2Qc (1 # 6))
  else Q2Qc (1 # 12).

Definition toy_stiffness (i j : nat) : Qc :=
  if Nat.eqb i j then (if Nat.eqb i 1 then of_int 4 else of_int 2)
  else of_int (-2).

Definition toy_stretch (geom : option BaseVector) : Qc :=
  match geom with
  | None => 1
  | Some d => 1 + dot d d
  end.

Definition empty_matrix : SparseMatrix := mkSparse 0 0 false [] [].

Fixpoint toy_bf (geom : option BaseVector) (i j : nat) (c : CF) : Qc :=
  match c with
  | CFadd a b => toy_bf geom i j a + toy_bf geom i j b
  | CFmul (CFnum k) a => k * toy_bf geom i j a
  | _ => if uses_grad c then toy_stiffness i j / toy_stretch geom
         else toy_mass i j * toy_stretch geom
  end.

Definition toy_numerics : Numerics :=
  mkNumerics
    (fun _ cf _ geom i j => toy_bf geom i j cf)
    (fun _ _ _ geom i => of_int (Z.of_nat (S i)) * toy_stretch geom)
    (fun _ _ i => of_int (Z.of_nat i)).

(** A closed surface with three dofs in space: no region is marked, so
    the vector space has nine free dofs. *)
Definition toy_surface : Mesh :=
  mkMesh 3 ["surface"%string]
    (fun _ => mkDofTable
                [mkDof ["surface"%string] []; mkDof ["surface"%string] [];
                 mkDof ["surface"%string] []]
                [(0, 0); (0, 1); (0, 2); (1, 0); (1, 1); (1, 2);
                 (2, 0); (2, 1); (2, 2)]%nat).

Definition toy_tau : Qc := Q2Qc (1 # 10).

Definition toy_Tend : Qc := Q2Qc (1 # 4).

Definition empty_mcf : MCFState :=
  mkMCF 0 0 empty_matrix [] (mkInverse empty_matrix []) [] [] [] [].

Definition toy_mcf0 : MCFState :=
  match mcf_init toy_numerics toy_surface 2 toy_tau with
  | Ok s => s
  | Raise _ => empty_mcf
  end.

Definition toy_mcf1 : MCFState :=
  match mcf_body toy_numerics (VectorH1 toy_surface 2) toy_tau toy_mcf0 with
  | Ok s => s
  | Raise _ => empty_mcf
  end.

Definition toy_fes : FESpace := parabolic_fes toy_mesh.

Definition toy_dt : Qc := Q2Qc (1 # 4).

Definition toy_a : SparseMatrix :=
  match assemble_mstar toy_numerics toy_fes toy_dt with
  | Ok (a, _, _) => a
  | Raise _ => empty_matrix
  end.

Definition toy_m : SparseMatrix :=
  match assemble_mstar toy_numerics toy_fes toy_dt with
  | Ok (_, m, _) => m
  | Raise _ => empty_matrix
  end.

Definition toy_mstar : SparseMatrix :=
  match assemble_mstar toy_numerics toy_fes toy_dt with
  | Ok (_, _, mstar) => mstar
  | Raise _ => empty_matrix
  end.

Definition toy_inv : InverseMatrix :=
  match Inverse toy_mstar (FreeDofs toy_fes) with
  | Ok inv => inv
  | Raise _ => mkInverse empty_matrix []
  end.

Definition toy_G : Globals :=
  mkGlobals toy_dt [of_int 1; of_int 2; of_int 3] toy_a toy_fes.

Definition toy_u0 : BaseVector := [of_int 5; of_int 1; of_int 7].

Definition toy_state : TSState := mkTS toy_u0 0 0 [toy_u0] [].

(** The same globals with zero forcing. *)
Definition toy_G0 : Globals := mkGlobals toy_dt (vzero 3) toy_a toy_fes.

(** The solve of the Dirichlet tutorial on the small instance. *)
Definition toy_u : BaseVector :=
  match solve_free toy_a (FreeDofs toy_fes) (f_vec toy_G) toy_u0 with
  | Ok u => u
  | Raise _ => []
  end.



(** The solve with homogeneous data on the small instance. *)
Definition toy_direct : BaseVector :=
  match direct_solve toy_a (FreeDofs toy_fes) (f_vec toy_G) with
  | Ok u => u
  | Raise _ => []
  end.

(** The vector after one time step on the small instance. *)
Definition toy_u1 : BaseVector :=
  match euler_update toy_G (inv_mult toy_inv) toy_u0 with
  | Ok u => u
  | Raise _ => []
  end.

(** The small instance with [dt] a float; the matrix of the method is
    built with the real value of [dt]. *)
Definition toy_G64 (d : PrimFloat.float) : Binary64.Globals :=
  Binary64.mkG d [of_int 1; of_int 2; of_int 3] toy_a toy_fes.

Definition toy_inv64 (d : PrimFloat.float) : InverseMatrix :=
  match assemble_mstar toy_numerics toy_fes (Binary64.real_of d) with
  | Ok (_, _, mstar) =>
      match Inverse mstar (FreeDofs toy_fes) with
      | Ok inv => inv
      | Raise _ => mkInverse empty_matrix []
      end
  | Raise _ => mkInverse empty_matrix []
  end.

Definition toy_state64 : Binary64.TSState :=
  Binary64.mkTS toy_u0 0 (Binary64.PyInt 0) [toy_u0] [].

(** [TimeStepping(invmstar)] with [dt = 0.25] on the small instance. *)
Definition toy_final64 : Binary64.TSState :=
  match Binary64.TimeStepping toy_numerics (toy_G64 (Binary64.ratio 1 4))
          (inv_mult (toy_inv64 (Binary64.ratio 1 4))) None
          (Binary64.PyInt 0) (Binary64.PyInt 2) 10 toy_u0 20 with
  | Some (Ok s) => s
  | _ => toy_state64
  end.

(** * Properties *)

(** ** Lists and vectors *)

Lemma zipwith_length {A B C} (f : A -> B -> C) u v :
  length u = length v -> length (zipwith f u v) = length u.
Proof.
  revert v; induction u as [|x u IH]; intros [|y v]; simpl; try discriminate; auto.
Qed.

Lemma vscale_length c v : length (vscale c v) = length v.
Proof. apply length_map. Qed.

Lemma vzero_length n : length (vzero n) = n.
Proof. apply repeat_length. Qed.

Lemma dot_cons x u y v : dot (x :: u) (y :: v) = x * y + dot u v.
Proof. reflexivity. Qed.

Lemma dot_nil_r u : dot u [] = 0.
Proof. destruct u; reflexivity. Qed.

Lemma dot_vzero_r u n : dot u (vzero n) = 0.
Proof.
  revert n; induction u as [|x u IH]; intros [|n]; simpl; try reflexivity.
  change (x * 0 + dot u (vzero n) = 0). rewrite IH. ring.
Qed.

Lemma dot_vscale_l c u v : dot (vscale c u) v = c * dot u v.
Proof.
  revert v; induction u as [|x u IH]; intros [|y v]; simpl;
    try (unfold dot; simpl; ring).
  change (c * x * y + dot (vscale c u) v = c * (x * y + dot u v)).
  rewrite IH. ring.
Qed.

Lemma vnth_zipwith (f : Qc -> Qc -> Qc) u v i :
  length u = length v -> (i < length u)%nat ->
  vnth (zipwith f u v) i = f (vnth u i) (vnth v i).
Proof.
  unfold vnth. revert v i; induction u as [|x u IH]; intros [|y v] [|i]; simpl;
    intros; try discriminate; try lia; auto.
  apply IH; lia.
Qed.


Lemma vnth_vzero n i : vnth (vzero n) i = 0.
Proof.
  unfold vnth, vzero. revert i; induction n; intros [|i]; simpl; auto.
Qed.

Lemma vnth_map_seq (f : nat -> Qc) n i :
  (i < n)%nat -> vnth (map f (seq 0 n)) i = f i.
Proof.
  intros Hi. unfold vnth.
  rewrite nth_indep with (d' := f 0%nat) by (rewrite length_map, length_seq; exact Hi).
  rewrite map_nth, seq_nth by exact Hi. reflexivity.
Qed.

(** ** Restriction to the free dofs *)

Lemma gather_length {A} (mask : BitArray) (v : list A) :
  length v = length mask -> length (gather mask v) = NumSet mask.
Proof.
  unfold NumSet. revert v; induction mask as [|b mask IH]; intros [|x v]; simpl;
    try discriminate; auto.
  intros H. destruct b; simpl; rewrite IH by lia; reflexivity.
Qed.

Lemma gather_In {A} (mask : BitArray) (v : list A) i d :
  length v = length mask -> nth i mask false = true ->
  In (nth i v d) (gather mask v).
Proof.
  revert v i; induction mask as [|b mask IH]; intros [|x v] [|i]; simpl;
    try discriminate; intros Hl Hb.
  - subst b. left; reflexivity.
  - destruct b; [right|]; apply IH; auto.
Qed.

Lemma scatter_length mask xs : length (scatter mask xs) = length mask.
Proof.
  revert xs; induction mask as [|[|] mask IH]; intros xs; simpl; auto.
  destruct xs; simpl; rewrite IH; reflexivity.
Qed.

Lemma scatter_constrained mask xs i :
  nth i mask true = false -> vnth (scatter mask xs) i = 0.
Proof.
  unfold vnth.
  revert xs i; induction mask as [|b mask IH]; intros xs i Hb.
  - destruct i; discriminate.
  - destruct i as [|i]; simpl in Hb.
    + subst b. reflexivity.
    + destruct b; [destruct xs|]; simpl; apply IH; exact Hb.
Qed.

Lemma scatter_nil mask : scatter mask [] = vzero (length mask).
Proof.
  induction mask as [|[|] mask IH]; simpl; try rewrite IH; reflexivity.
Qed.

Lemma scatter_vzero mask n : scatter mask (vzero n) = vzero (length mask).
Proof.
  revert n; induction mask as [|[|] mask IH]; intros n; simpl; auto.
  - destruct n; simpl.
    + rewrite scatter_nil. reflexivity.
    + rewrite IH. reflexivity.
  - rewrite IH. reflexivity.
Qed.

Lemma dot_scatter mask : forall w xs,
  length w = length mask -> length xs = NumSet mask ->
  dot w (scatter mask xs) = dot (gather mask w) xs.
Proof.
  unfold NumSet.
  induction mask as [|b mask IH]; intros w xs Hw Hx.
  - destruct w; [|discriminate]. destruct xs; reflexivity.
  - destruct w as [|y w]; [discriminate|]. simpl in Hw.
    destruct b; simpl in *.
    + destruct xs as [|x xs]; [discriminate|]. simpl in Hx.
      rewrite !dot_cons, IH by lia. reflexivity.
    + rewrite dot_cons, IH by lia. ring.
Qed.

(** ** The direct solver *)

Lemma is_zero_false q : is_zero q = false -> q <> 0.
Proof. unfold is_zero. destruct (Qc_eq_dec q 0); [discriminate|auto]. Qed.

Lemma is_zero_true q : is_zero q = true -> q = 0.
Proof. unfold is_zero. destruct (Qc_eq_dec q 0); [auto|discriminate]. Qed.

Lemma pick_pivot_spec eqs : forall p others,
  pick_pivot eqs = Some (p, others) ->
  lead p <> 0 /\
  length eqs = S (length others) /\
  In p eqs /\
  (forall e, In e others -> In e eqs) /\
  (forall e, In e eqs -> e = p \/ In e others).
Proof.
  induction eqs as [|e0 eqs IH]; intros p others H; simpl in H; [discriminate|].
  destruct (is_zero (lead e0)) eqn:Hz.
  - destruct (pick_pivot eqs) as [[p' o']|] eqn:Hp; [|discriminate].
    inversion H; subst; clear H.
    destruct (IH _ _ eq_refl) as (Hl & Hn & Hpin & Hoin & Hin).
    split; [exact Hl|]. split; [simpl; rewrite Hn; reflexivity|].
    split; [right; exact Hpin|]. split.
    + intros e [He|He]; [left; exact He|right; apply Hoin; exact He].
    + intros e [He|He].
      * subst. right; left; reflexivity.
      * destruct (Hin e He); [left|right; right]; auto.
  - inversion H; subst; clear H.
    split; [apply is_zero_false; exact Hz|]. split; [reflexivity|].
    split; [left; reflexivity|]. split.
    + intros e He; right; exact He.
    + intros e [He|He]; [left|right]; auto.
Qed.

Lemma dot_eliminated f : forall es cs xs,
  length es = length cs ->
  dot (zipwith (fun a b => a - f * b) es cs) xs = dot es xs - f * dot cs xs.
Proof.
  induction es as [|e1 es IH]; intros [|c cs] xs H; try discriminate.
  - simpl. unfold dot; simpl. ring.
  - destruct xs as [|x xs].
    + rewrite !dot_nil_r. ring.
    + simpl zipwith. rewrite !dot_cons, IH by (simpl in H; lia). ring.
Qed.

Lemma eliminate_satisfies p e c cs e1 es xs :
  fst p = c :: cs -> fst e = e1 :: es -> c <> 0 ->
  length es = length cs ->
  satisfies xs (eliminate p e) ->
  satisfies ((snd p - dot cs xs) / c :: xs) e.
Proof.
  unfold satisfies, eliminate, lead. intros Hp He Hc Hl H.
  rewrite Hp, He in *. simpl in H. rewrite dot_eliminated in H by exact Hl.
  rewrite dot_cons.
  assert (Hd : dot es xs = snd e - e1 / c * snd p + e1 / c * dot cs xs).
  { rewrite <- H. ring. }
  rewrite Hd. field. exact Hc.
Qed.

Lemma solve_sound : forall k eqs xs,
  length eqs = k ->
  (forall e, In e eqs -> length (fst e) = k) ->
  solve k eqs = Some xs ->
  length xs = k /\ forall e, In e eqs -> satisfies xs e.
Proof.
  induction k as [|k IH]; intros eqs xs Hn Hw H; simpl in H.
  - inversion H; subst. split; [reflexivity|].
    intros e He. destruct eqs; [contradiction|discriminate].
  - destruct (pick_pivot eqs) as [[p others]|] eqn:Hp; [|discriminate].
    destruct (solve k (map (eliminate p) others)) as [ys|] eqn:Hs; [|discriminate].
    inversion H; subst xs; clear H.
    destruct (pick_pivot_spec _ _ _ Hp) as (Hlead & Hlen & Hpin & Hoin & Hin).
    destruct (fst p) as [|c cs] eqn:Hfp.
    { specialize (Hw p Hpin). rewrite Hfp in Hw. discriminate. }
    assert (Hcs : length cs = k).
    { specialize (Hw p Hpin). rewrite Hfp in Hw. simpl in Hw. lia. }
    assert (Hc : c <> 0).
    { unfold lead in Hlead. rewrite Hfp in Hlead. exact Hlead. }
    destruct (IH (map (eliminate p) others) ys) as (Hy & Hsat).
    + rewrite length_map. unfold Equation in *. lia.
    + intros e He. apply in_map_iff in He. destruct He as (e' & <- & He').
      unfold eliminate. simpl. rewrite Hfp. simpl.
      specialize (Hw e' (Hoin _ He')).
      destruct (fst e') as [|e1 es]; [discriminate|]. simpl in *.
      rewrite zipwith_length; lia.
    + exact Hs.
    + split; [simpl; lia|].
      unfold lead. rewrite Hfp. simpl hd. simpl tl.
      intros e He. destruct (Hin e He) as [->|Ho].
      * unfold satisfies. rewrite Hfp, dot_cons. field. exact Hc.
      * specialize (Hw e He).
        destruct (fst e) as [|e1 es] eqn:Hfe; [discriminate|].
        apply (eliminate_satisfies p e c cs e1 es ys); auto.
        -- simpl in Hw. lia.
        -- apply Hsat. apply in_map. exact Ho.
Qed.

(** Whether a pivot exists never depends on the right-hand sides. *)
Lemma pick_pivot_coefficients : forall eqs1 eqs2,
  map fst eqs1 = map fst eqs2 ->
  match pick_pivot eqs1, pick_pivot eqs2 with
  | Some (p1, o1), Some (p2, o2) => fst p1 = fst p2 /\ map fst o1 = map fst o2
  | None, None => True
  | _, _ => False
  end.
Proof.
  induction eqs1 as [|e1 eqs1 IH]; intros [|e2 eqs2] H; simpl in H; try discriminate.
  - exact I.
  - inversion H as [[Hf Ht]]. simpl. unfold lead. rewrite Hf.
    destruct (is_zero (hd 0 (fst e2))).
    + specialize (IH _ Ht).
      destruct (pick_pivot eqs1) as [[p1 o1]|], (pick_pivot eqs2) as [[p2 o2]|];
        try contradiction; auto.
      destruct IH as (Hp & Ho). split; [exact Hp|]. simpl. rewrite Hf, Ho. reflexivity.
    + split; auto.
Qed.

Lemma solve_defined : forall k eqs1 eqs2 xs,
  map fst eqs1 = map fst eqs2 ->
  solve k eqs1 = Some xs -> exists ys, solve k eqs2 = Some ys.
Proof.
  induction k as [|k IH]; intros eqs1 eqs2 xs Hf H; simpl in *.
  - eexists; reflexivity.
  - pose proof (pick_pivot_coefficients _ _ Hf) as Hp.
    destruct (pick_pivot eqs1) as [[p1 o1]|]; [|discriminate].
    destruct (pick_pivot eqs2) as [[p2 o2]|]; [|contradiction].
    destruct Hp as (Hp & Ho).
    destruct (solve k (map (eliminate p1) o1)) as [zs|] eqn:Hs; [|discriminate].
    destruct (IH (map (eliminate p1) o1) (map (eliminate p2) o2) zs) as (ys & Hy).
    + rewrite !map_map. clear - Hp Ho.
      revert o2 Ho; induction o1 as [|a o1 IHo]; intros [|b o2] Ho; simpl in Ho;
        try discriminate; [reflexivity|].
      inversion Ho as [[Hab Hr]]. simpl.
      f_equal; [|apply IHo; exact Hr].
      unfold eliminate, lead. simpl. rewrite Hp, Hab. reflexivity.
    + exact Hs.
    + rewrite Hy. eexists; reflexivity.
Qed.

(** A system whose right-hand sides vanish has the zero solution. *)
Lemma solve_homogeneous : forall k eqs xs,
  (forall e, In e eqs -> snd e = 0) ->
  solve k eqs = Some xs -> xs = vzero k.
Proof.
  induction k as [|k IH]; intros eqs xs Hz H; simpl in H.
  - inversion H; reflexivity.
  - destruct (pick_pivot eqs) as [[p others]|] eqn:Hp; [|discriminate].
    destruct (solve k (map (eliminate p) others)) as [ys|] eqn:Hs; [|discriminate].
    inversion H; subst xs; clear H.
    destruct (pick_pivot_spec _ _ _ Hp) as (_ & _ & Hpin & Hoin & _).
    assert (Hy : ys = vzero k).
    { apply (IH (map (eliminate p) others)); [|exact Hs].
      intros e He. apply in_map_iff in He. destruct He as (e' & <- & He').
      unfold eliminate. simpl. rewrite (Hz p Hpin), (Hz e' (Hoin _ He')). ring. }
    subst ys. rewrite (Hz p Hpin), dot_vzero_r.
    change (vzero (S k)) with (0 :: vzero k). f_equal.
    unfold Qcdiv. ring.
Qed.

(** ** The inverse restricted to the free dofs *)

Lemma gather_subset {A} (mask : BitArray) (v : list A) x :
  In x (gather mask v) -> In x v.
Proof.
  revert v; induction mask as [|b mask IH]; intros [|y v]; simpl; try contradiction.
  destruct b; simpl; intros H.
  - destruct H; [left|right]; auto.
  - right; auto.
Qed.

Lemma map_fst_gather {A B} (mask : BitArray) (v : list (A * B)) :
  map fst (gather mask v) = gather mask (map fst v).
Proof.
  revert v; induction mask as [|b mask IH]; intros [|y v]; simpl; auto.
  destruct b; simpl; rewrite IH; reflexivity.
Qed.

Lemma row_length M i : length (row M i) = width M.
Proof. unfold row. rewrite length_map, length_seq. reflexivity. Qed.

Lemma free_system_coefficients M freedofs r r' :
  map fst (free_system M freedofs r) = map fst (free_system M freedofs r').
Proof.
  unfold free_system. rewrite !map_fst_gather, !map_map. reflexivity.
Qed.

Lemma free_system_wf M freedofs r :
  height M = width M -> length freedofs = height M ->
  length (free_system M freedofs r) = NumSet freedofs /\
  forall e, In e (free_system M freedofs r) -> length (fst e) = NumSet freedofs.
Proof.
  intros Hsq Hf. unfold free_system. split.
  - apply gather_length. rewrite length_map, length_seq. lia.
  - intros e He. apply gather_subset in He. apply in_map_iff in He.
    destruct He as (i & <- & _). simpl.
    apply gather_length. rewrite row_length. lia.
Qed.

Lemma Inverse_Ok M freedofs inv :
  Inverse M freedofs = Ok inv ->
  factor_of inv = M /\ inv_freedofs inv = freedofs /\
  height M = width M /\ length freedofs = height M.
Proof.
  unfold Inverse. intros H.
  destruct (Nat.eqb (height M) (width M) && Nat.eqb (length freedofs) (height M)) eqn:E;
    [|discriminate].
  apply andb_prop in E. destruct E as (E1 & E2).
  apply Nat.eqb_eq in E1, E2.
  destruct (solve _ _); inversion H; subst. simpl. auto.
Qed.

(** Once the factorisation exists, it applies to every right-hand side
    of the right size. *)
Lemma inv_mult_defined M freedofs inv r :
  Inverse M freedofs = Ok inv -> length r = height M ->
  exists x, inv_mult inv r = Ok x.
Proof.
  intros HI Hr. destruct (Inverse_Ok _ _ _ HI) as (HM & HF & _ & _).
  unfold inv_mult. rewrite HM, HF, Hr, Nat.eqb_refl.
  unfold Inverse in HI.
  destruct (Nat.eqb (height M) (width M) && Nat.eqb (length freedofs) (height M));
    [|discriminate].
  destruct (solve (NumSet freedofs) (free_system M freedofs (vzero (height M))))
    as [zs|] eqn:Hs; [|discriminate].
  destruct (solve_defined _ _ (free_system M freedofs r) zs
              (free_system_coefficients M freedofs _ r) Hs) as (ys & Hy).
  rewrite Hy. eexists; reflexivity.
Qed.

(** What [inv * r] is: zero on the constrained dofs, and on the free
    rows the product with the factorised matrix gives back [r]. *)
Lemma inv_mult_spec inv r x :
  height (factor_of inv) = width (factor_of inv) ->
  length (inv_freedofs inv) = height (factor_of inv) ->
  inv_mult inv r = Ok x ->
  length x = height (factor_of inv) /\
  (forall i, nth i (inv_freedofs inv) true = false -> vnth x i = 0) /\
  (forall i, (i < height (factor_of inv))%nat ->
             nth i (inv_freedofs inv) false = true ->
             dot (row (factor_of inv) i) x = vnth r i).
Proof.
  intros Hsq Hf H. unfold inv_mult in H.
  set (M := factor_of inv) in *. set (F := inv_freedofs inv) in *.
  destruct (Nat.eqb (length r) (height M)); [|discriminate].
  destruct (solve (NumSet F) (free_system M F r)) as [xs|] eqn:Hs; [|discriminate].
  inversion H; subst x; clear H.
  destruct (free_system_wf M F r Hsq Hf) as (Hn & Hw).
  destruct (solve_sound _ _ _ Hn Hw Hs) as (Hx & Hsat).
  split; [rewrite scatter_length; exact Hf|].
  split; [intros i Hi; apply scatter_constrained; exact Hi|].
  intros i Hi Hfree.
  rewrite dot_scatter by (rewrite ?row_length; lia).
  pose (eq_i := fun k : nat => (gather F (row M k), vnth r k)).
  assert (Hin : In (eq_i i) (free_system M F r)).
  { unfold free_system.
    replace (eq_i i) with (nth i (map eq_i (seq 0 (height M))) (eq_i 0%nat)).
    - apply gather_In; [rewrite length_map, length_seq; lia|exact Hfree].
    - rewrite map_nth, seq_nth by exact Hi. reflexivity. }
  apply (Hsat _ Hin).
Qed.

Lemma inv_mult_zero inv x :
  inv_mult inv (vzero (height (factor_of inv))) = Ok x ->
  x = vzero (length (inv_freedofs inv)).
Proof.
  unfold inv_mult. rewrite vzero_length, Nat.eqb_refl.
  destruct (solve _ _) as [xs|] eqn:Hs; [|discriminate].
  intros H; inversion H; subst x; clear H.
  assert (Hz : xs = vzero (NumSet (inv_freedofs inv))).
  { apply (solve_homogeneous _ _ _) with (2 := Hs).
    intros e He. unfold free_system in He. apply gather_subset in He.
    apply in_map_iff in He. destruct He as (i & <- & _). simpl. apply vnth_vzero. }
  rewrite Hz. apply scatter_vzero.
Qed.

Lemma matvec_Ok M x :
  width M = length x ->
  matvec M x = Ok (map (fun i => dot (row M i) x) (seq 0 (height M))).
Proof. intros H. unfold matvec. rewrite H, Nat.eqb_refl. reflexivity. Qed.


(** ** parabolic.ipynb: the matrix [mstar] *)

Lemma stored_combination p : forall (mv av : list Qc) c i j,
  length mv = length p -> length av = length p ->
  stored p (zipwith Qcplus mv (vscale c av)) i j
  = stored p mv i j + c * stored p av i j.
Proof.
  induction p as [|[r0 c0] p IH]; intros mv av c i j Hm Ha.
  - simpl. ring.
  - destruct mv as [|x mv]; [discriminate|].
    destruct av as [|y av]; [discriminate|].
    simpl in *. destruct (Nat.eqb r0 i && Nat.eqb c0 j); [reflexivity|].
    apply IH; lia.
Qed.

Lemma build_mstar_entries (m a : SparseMatrix) (c : Qc) :
  pattern a = pattern m -> symmetric_storage a = symmetric_storage m ->
  well_stored m -> well_stored a ->
  exists mstar,
    build_mstar m a c = Ok mstar /\
    pattern mstar = pattern m /\
    height mstar = height m /\ width mstar = width m /\
    AsVector mstar = zipwith Qcplus (AsVector m) (vscale c (AsVector a)) /\
    forall i j, entry mstar i j = entry m i j + c * entry a i j.
Proof.
  intros Hp Hs Hm Ha. unfold well_stored, nze in *. rewrite Hp in Ha.
  unfold build_mstar, vadd, AsVector.
  rewrite vscale_length, Hm, Ha, Nat.eqb_refl. simpl.
  unfold set_AsVector, CreateMatrix, AsVector, nze. simpl.
  rewrite zipwith_length by (rewrite vscale_length; lia).
  rewrite Nat.eqb_refl.
  eexists; split; [reflexivity|]. simpl.
  repeat split; auto.
  intros i j. unfold entry. simpl. rewrite Hp, Hs.
  destruct (symmetric_storage m && Nat.ltb i j); apply stored_combination; assumption.
Qed.

Lemma Assemble_Ok N env a M :
  Assemble N env a = Ok M ->
  pattern M = graph (bf_space a) /\
  symmetric_storage M = false /\
  height M = ndof (bf_space a) /\ width M = ndof (bf_space a) /\
  well_stored M.
Proof.
  unfold Assemble.
  intros H; inversion H; subst M; clear H. simpl.
  repeat split. unfold well_stored, nze. simpl. apply length_map.
Qed.

(** C1. Two forms on the same FunctionSpace, both with
    [symmetric=False], assemble to matrices with one sparsity pattern;
    writing [m.mat.AsVector() + dt * a.mat.AsVector()] into the value
    array of [m.mat.CreateMatrix()] then succeeds, leaves the copied
    pattern as it is, and gives the entries [m[r,c] + dt * a[r,c]]. *)
Theorem mstar_is_M_plus_dt_A (N : Numerics) (env : Env) (bfm bfa : BilinearForm)
  (c : Qc) (m a : SparseMatrix) :
  bf_space bfa = bf_space bfm ->
  bf_symmetric bfm = false -> bf_symmetric bfa = false ->
  Assemble N env bfm = Ok m -> Assemble N env bfa = Ok a ->
  pattern a = pattern m /\
  exists mstar,
    build_mstar m a c = Ok mstar /\
    pattern mstar = pattern m /\
    nze mstar = nze m /\
    AsVector mstar = zipwith Qcplus (AsVector m) (vscale c (AsVector a)) /\
    forall i j, entry mstar i j = entry m i j + c * entry a i j.
Proof.
  intros Hfes Hsm Hsa Hm Ha.
  destruct (Assemble_Ok _ _ _ _ Hm) as (Pm & Sm & _ & _ & Wm).
  destruct (Assemble_Ok _ _ _ _ Ha) as (Pa & Sa & _ & _ & Wa).
  assert (Hp : pattern a = pattern m).
  { rewrite Pm, Pa, Hfes. reflexivity. }
  split; [exact Hp|].
  destruct (build_mstar_entries m a c Hp) as (mstar & H1 & H2 & _ & _ & H3 & H4);
    [congruence|exact Wm|exact Wa|].
  exists mstar. repeat split; auto.
  unfold nze. rewrite H2. reflexivity.
Qed.

Lemma mstar_is_M_plus_dt_A_witness :
  exists m a mstar,
    Assemble toy_numerics no_gf (m_form toy_fes) = Ok m /\
    Assemble toy_numerics no_gf (a_form toy_fes) = Ok a /\
    build_mstar m a toy_dt = Ok mstar /\
    pattern mstar = pattern m /\
    forall i j, entry mstar i j = entry m i j + toy_dt * entry a i j.
Proof.
  destruct (mstar_is_M_plus_dt_A toy_numerics no_gf (m_form toy_fes) (a_form toy_fes)
              toy_dt _ _ eq_refl eq_refl eq_refl eq_refl eq_refl)
    as (_ & mstar & H1 & H2 & _ & _ & H3).
  eexists. eexists. exists mstar.
  split; [reflexivity|]. split; [reflexivity|]. auto.
Defined.

(** ** parabolic.ipynb: one implicit Euler step *)

Lemma stored_vscale p : forall v c i j,
  stored p (vscale c v) i j = c * stored p v i j.
Proof.
  induction p as [|[r0 c0] p IH]; intros [|x v] c i j; simpl; try ring.
  destruct (Nat.eqb r0 i && Nat.eqb c0 j); [reflexivity|apply IH].
Qed.

Lemma row_mscale c M i : row (mscale c M) i = vscale c (row M i).
Proof.
  unfold row, vscale. rewrite map_map. simpl. apply map_ext. intros j.
  unfold entry. simpl.
  destruct (symmetric_storage M && Nat.ltb i j); apply stored_vscale.
Qed.

(** [(dt * a.mat) * u] is [dt * (a.mat * u)]. *)
Lemma matvec_mscale c M x y :
  matvec M x = Ok y -> matvec (mscale c M) x = Ok (vscale c y).
Proof.
  unfold matvec. simpl. destruct (Nat.eqb (width M) (length x)); [|discriminate].
  intros H; inversion H; subst y; clear H. f_equal.
  unfold vscale at 1. rewrite map_map. apply map_ext. intros i.
  rewrite row_mscale. apply dot_vscale_l.
Qed.


Lemma vadd_Ok u v :
  length u = length v -> vadd u v = Ok (zipwith Qcplus u v).
Proof. intros H. unfold vadd. rewrite H, Nat.eqb_refl. reflexivity. Qed.

Lemma vsub_Ok u v :
  length u = length v -> vsub u v = Ok (zipwith Qcminus u v).
Proof. intros H. unfold vsub. rewrite H, Nat.eqb_refl. reflexivity. Qed.

Lemma zipwith_map {A B C D} (f : B -> C -> D) (g : A -> B) (h : A -> C) l :
  zipwith f (map g l) (map h l) = map (fun x => f (g x) (h x)) l.
Proof. induction l; simpl; [|rewrite IHl]; reflexivity. Qed.

Lemma dot_add_l : forall u v x,
  length u = length v -> dot (zipwith Qcplus u v) x = dot u x + dot v x.
Proof.
  induction u as [|a u IH]; intros [|b v] x H; try discriminate.
  - unfold dot; simpl. ring.
  - destruct x as [|y x].
    + rewrite !dot_nil_r. ring.
    + simpl zipwith. rewrite !dot_cons, IH by (simpl in H; lia). ring.
Qed.

Lemma row_combination mstar m a c i :
  (forall j k, entry mstar j k = entry m j k + c * entry a j k) ->
  width mstar = width m -> width a = width m ->
  row mstar i = zipwith Qcplus (row m i) (vscale c (row a i)).
Proof.
  intros He Hw Ha. unfold row, vscale. rewrite map_map, Hw, Ha, zipwith_map.
  apply map_ext. intros j. apply He.
Qed.

(** What the two update lines compute, when they run through. *)
Lemma euler_update_Ok G (invmstar : Operator) u u' :
  euler_update G invmstar u = Ok u' ->
  exists Au r delta,
    matvec (a_mat G) u = Ok Au /\
    vsub (vscale (dt G) (f_vec G)) (vscale (dt G) Au) = Ok r /\
    invmstar r = Ok delta /\
    vadd u delta = Ok u' /\
    u' = zipwith Qcplus u delta /\ length u' = length u.
Proof.
  unfold euler_update. intros H.
  destruct (matvec (a_mat G) u) as [Au|e] eqn:HA.
  - rewrite (matvec_mscale _ _ _ _ HA) in H. simpl in H.
    destruct (vsub _ _) as [r|] eqn:Hr; simpl in H; [|discriminate].
    destruct (invmstar r) as [delta|] eqn:Hd; simpl in H; [|discriminate].
    exists Au, r, delta. repeat split; auto.
    + unfold vadd in H. destruct (Nat.eqb _ _); inversion H; reflexivity.
    + unfold vadd in H. destruct (Nat.eqb (length u) (length delta)) eqn:E;
        inversion H. apply Nat.eqb_eq in E. apply zipwith_length; exact E.
  - unfold matvec in *. simpl in *.
    destruct (Nat.eqb (width (a_mat G)) (length u)); [discriminate|].
    simpl in H. discriminate.
Qed.

(** The two update lines run through when the shapes fit. *)
Lemma euler_update_defined G (invmstar : Operator) u n :
  height (a_mat G) = n -> width (a_mat G) = n ->
  length (f_vec G) = n -> length u = n ->
  (forall r, length r = n -> exists delta, invmstar r = Ok delta /\ length delta = n) ->
  exists u', euler_update G invmstar u = Ok u'.
Proof.
  intros Hh Hw Hf Hu Hop. unfold euler_update.
  assert (Hx : width (a_mat G) = length u) by congruence.
  rewrite (matvec_mscale _ _ _ _ (matvec_Ok (a_mat G) u Hx)). simpl.
  rewrite vsub_Ok.
  2:{ rewrite !vscale_length, length_map, length_seq. congruence. }
  simpl.
  destruct (Hop (zipwith Qcminus (vscale (dt G) (f_vec G))
                   (vscale (dt G)
                      (map (fun i => dot (row (a_mat G) i) u) (seq 0 (height (a_mat G)))))))
    as (delta & Hd & Hl).
  { rewrite zipwith_length; rewrite !vscale_length; [exact Hf|].
    rewrite length_map, length_seq. congruence. }
  rewrite Hd. simpl. rewrite vadd_Ok by congruence. eexists; reflexivity.
Qed.

Lemma inv_mult_length M freedofs inv r x :
  Inverse M freedofs = Ok inv -> inv_mult inv r = Ok x -> length x = height M.
Proof.
  intros HI Hx. destruct (Inverse_Ok _ _ _ HI) as (HM & HF & Hsq & Hl).
  destruct (inv_mult_spec inv r x) as (H & _); rewrite ?HM, ?HF; auto.
  rewrite HM in H. exact H.
Qed.

Lemma assemble_mstar_Ok N fes c a m mstar :
  assemble_mstar N fes c = Ok (a, m, mstar) ->
  Assemble N no_gf (a_form fes) = Ok a /\
  Assemble N no_gf (m_form fes) = Ok m /\
  build_mstar m a c = Ok mstar.
Proof.
  unfold assemble_mstar. intros H.
  destruct (Assemble N no_gf (a_form fes)) as [a'|]; cbn [bind] in H; [|discriminate].
  destruct (Assemble N no_gf (m_form fes)) as [m'|]; cbn [bind] in H; [|discriminate].
  destruct (build_mstar m' a' c) as [ms|] eqn:E; cbn [bind] in H; [|discriminate].
  inversion H; subst. auto.
Qed.

Lemma sampled_Ok c sample_int :
  sample_int <> 0%Z -> sampled c sample_int = Ok (Z.eqb (c mod sample_int) 0).
Proof.
  intros H. unfold sampled. destruct (Z.eqb_spec sample_int 0); [contradiction|reflexivity].
Qed.

Lemma assembled_shapes N fes c a m mstar :
  assemble_mstar N fes c = Ok (a, m, mstar) ->
  height a = ndof fes /\ width a = ndof fes /\
  height m = ndof fes /\ width m = ndof fes /\
  height mstar = ndof fes /\ width mstar = ndof fes /\
  forall i j, entry mstar i j = entry m i j + c * entry a i j.
Proof.
  intros H. destruct (assemble_mstar_Ok _ _ _ _ _ _ H) as (Ha & Hm & Hb).
  destruct (Assemble_Ok _ _ _ _ Ha) as (Pa & Sa & Hha & Hwa & Wa).
  destruct (Assemble_Ok _ _ _ _ Hm) as (Pm & Sm & Hhm & Hwm & Wm).
  destruct (build_mstar_entries m a c) as (ms & E1 & _ & E3 & E4 & _ & E6); auto.
  - rewrite Pa, Pm. reflexivity.
  - rewrite Sa, Sm. reflexivity.
  - rewrite Hb in E1. inversion E1; subst ms.
    simpl in *. repeat split; congruence.
Qed.

(** C2. One iteration of the [TimeStepping] loop, with [invmstar] the
    inverse of [mstar = M + dt*A] on the free dofs: the residual is
    [r = dt*f - dt*A*u_n], the increment [delta = invmstar * r]
    vanishes on the constrained dofs and satisfies [M* delta = r] on
    the free rows, and the new solution vector is [u_n + delta],
    nothing else. *)
Theorem implicit_euler_step (N : Numerics) (fes : FESpace) (G : Globals)
  (m mstar : SparseMatrix) (inv : InverseMatrix) (sample_int : Z) (s : TSState) :
  assemble_mstar N fes (dt G) = Ok (a_mat G, m, mstar) ->
  Inverse mstar (FreeDofs fes) = Ok inv ->
  length (f_vec G) = ndof fes ->
  length (gfu_vec s) = ndof fes ->
  sample_int <> 0%Z ->
  exists Au r delta Md s',
    matvec (a_mat G) (gfu_vec s) = Ok Au /\
    vsub (vscale (dt G) (f_vec G)) (vscale (dt G) Au) = Ok r /\
    inv_mult inv r = Ok delta /\
    (forall i, nth i (FreeDofs fes) true = false -> vnth delta i = 0) /\
    matvec mstar delta = Ok Md /\
    (forall i, (i < ndof fes)%nat -> nth i (FreeDofs fes) false = true ->
       vnth Md i = vnth r i /\
       dot (row m i) delta + dt G * dot (row (a_mat G) i) delta = vnth r i) /\
    TimeStepping_body G (inv_mult inv) sample_int s = Ok s' /\
    gfu_vec s' = zipwith Qcplus (gfu_vec s) delta /\
    (forall i, (i < ndof fes)%nat ->
       vnth (gfu_vec s') i = vnth (gfu_vec s) i + vnth delta i).
Proof.
  intros Hasm Hinv Hf Hu Hsi.
  destruct (assembled_shapes _ _ _ _ _ _ Hasm)
    as (Hha & Hwa & Hhm & Hwm & Hhs & Hws & Hent).
  destruct (Inverse_Ok _ _ _ Hinv) as (HM & HF & Hsq & Hfl).
  assert (Hop : forall r, length r = ndof fes ->
                  exists delta, inv_mult inv r = Ok delta /\ length delta = ndof fes).
  { intros r Hr.
    destruct (inv_mult_defined _ _ _ r Hinv) as (x & Hx); [congruence|].
    exists x. split; [exact Hx|]. rewrite (inv_mult_length _ _ _ _ _ Hinv Hx). exact Hhs. }
  destruct (euler_update_defined G (inv_mult inv) (gfu_vec s) (ndof fes) Hha Hwa Hf Hu Hop)
    as (u' & Hu').
  destruct (euler_update_Ok _ _ _ _ Hu') as (Au & r & delta & H1 & H2 & H3 & H4 & H5 & H6).
  destruct (inv_mult_spec inv r delta) as (Hdl & Hzero & Hrows);
    rewrite ?HM, ?HF; auto.
  rewrite HM, HF in *.
  assert (Hxd : width mstar = length delta) by congruence.
  exists Au, r, delta, (map (fun i => dot (row mstar i) delta) (seq 0 (height mstar))).
  eexists. split; [exact H1|]. split; [exact H2|]. split; [exact H3|].
  split; [exact Hzero|]. split; [apply matvec_Ok; exact Hxd|].
  split; [|split; [|split]].
  - intros i Hi Hfree.
    rewrite vnth_map_seq by congruence.
    rewrite <- (Hrows i) by (auto; congruence). split; [reflexivity|].
    rewrite (row_combination mstar m (a_mat G) (dt G) i Hent) by congruence.
    rewrite dot_add_l by (rewrite vscale_length, !row_length; congruence).
    rewrite dot_vscale_l. reflexivity.
  - unfold TimeStepping_body. rewrite Hu'. cbn [bind].
    rewrite (sampled_Ok _ _ Hsi). cbn [bind]. reflexivity.
  - simpl. exact H5.
  - intros i Hi. simpl. rewrite H5. apply vnth_zipwith; congruence.
Qed.

Lemma implicit_euler_step_witness :
  exists delta s',
    TimeStepping_body toy_G (inv_mult toy_inv) 1 toy_state = Ok s' /\
    gfu_vec s' = zipwith Qcplus toy_u0 delta /\
    vnth delta 0 = 0 /\ vnth delta 2 = 0.
Proof.
  destruct (implicit_euler_step toy_numerics toy_fes toy_G toy_m toy_mstar toy_inv 1
              toy_state)
    as (Au & r & delta & Md & s' & _ & _ & _ & Hz & _ & _ & Hs & Hu & _).
  - vm_compute. reflexivity.
  - vm_compute. reflexivity.
  - reflexivity.
  - reflexivity.
  - discriminate.
  - exists delta, s'. split; [exact Hs|]. split; [exact Hu|].
    split; apply Hz; reflexivity.
Defined.

(** ** Loops *)

Lemma while_invariant {St} (P : St -> Prop) cond (body : St -> Result St) :
  (forall s s', P s -> cond s = true -> body s = Ok s' -> P s') ->
  forall fuel s r, P s -> while fuel cond body s = Some (Ok r) -> P r /\ cond r = false.
Proof.
  intros Hstep. induction fuel as [|k IH]; intros s r Hs H; simpl in H; [discriminate|].
  destruct (cond s) eqn:Hc.
  - destruct (body s) as [s'|e] eqn:Hb; [|discriminate].
    apply (IH s'); [eapply Hstep; eauto|exact H].
  - inversion H; subst. auto.
Qed.







(** *** Loops that count: [cnt += 1; time = cnt * dt] *)

Section CounterLoop.
Variable G : Globals.
Variable tend : Qc.
Variable body : TSState -> Result TSState.

Hypothesis dt_positive : 0 < dt G.
Hypothesis body_counts :
  forall s s', body s = Ok s' ->
    cnt s' = (cnt s + 1)%Z /\ time s' = of_int (cnt s') * dt G.




End CounterLoop.

(** ** parabolic.ipynb: the time loops *)






Example TimeStepping_toy_run :
  exists s,
    TimeStepping toy_numerics toy_G (inv_mult toy_inv) None 0 default_tend
      default_nsamples toy_u0 20 = Some (Ok s) /\
    cnt s = 8%Z /\ length (gfut s) = 9%nat.
Proof. vm_compute. eexists. repeat split. Qed.

(** ** parabolic.ipynb: the zero state *)

Lemma vscale_vzero c n : vscale c (vzero n) = vzero n.
Proof.
  unfold vscale, vzero. induction n; simpl; [reflexivity|].
  rewrite IHn. f_equal. ring.
Qed.

Lemma map_const_vzero {A} (l : list A) : map (fun _ => 0) l = vzero (length l).
Proof. induction l; simpl; [|rewrite IHl]; reflexivity. Qed.

Lemma matvec_vzero M n :
  width M = n -> matvec M (vzero n) = Ok (vzero (height M)).
Proof.
  intros H. rewrite matvec_Ok by (rewrite vzero_length; exact H). f_equal.
  transitivity (map (fun _ : nat => 0) (seq 0 (height M))).
  - apply map_ext. intros i. apply dot_vzero_r.
  - rewrite map_const_vzero, length_seq. reflexivity.
Qed.

Lemma zipwith_vzero (f : Qc -> Qc -> Qc) n :
  f 0 0 = 0 -> zipwith f (vzero n) (vzero n) = vzero n.
Proof.
  intros H. unfold vzero. induction n; simpl; [reflexivity|].
  rewrite IHn, H. reflexivity.
Qed.

Lemma inv_mult_vzero M freedofs inv :
  Inverse M freedofs = Ok inv ->
  inv_mult inv (vzero (height M)) = Ok (vzero (height M)).
Proof.
  intros HI. destruct (Inverse_Ok _ _ _ HI) as (HM & HF & Hsq & Hl).
  destruct (inv_mult_defined _ _ _ (vzero (height M)) HI (vzero_length _)) as (x & Hx).
  rewrite Hx. f_equal. rewrite <- HM in Hx. apply inv_mult_zero in Hx.
  rewrite Hx, HF, Hl. reflexivity.
Qed.

Lemma euler_update_zero G M freedofs inv n :
  f_vec G = vzero n -> height (a_mat G) = n -> width (a_mat G) = n ->
  Inverse M freedofs = Ok inv -> height M = n ->
  euler_update G (inv_mult inv) (vzero n) = Ok (vzero n).
Proof.
  intros Hf Hh Hw HI HM. unfold euler_update.
  rewrite (matvec_mscale _ _ _ _ (matvec_vzero _ _ Hw)). cbn [bind].
  rewrite Hf, Hh, !vscale_vzero, vsub_Ok by reflexivity. cbn [bind].
  rewrite zipwith_vzero by ring.
  rewrite <- HM, (inv_mult_vzero _ _ _ HI). cbn [bind].
  rewrite vadd_Ok by reflexivity. rewrite zipwith_vzero by ring. reflexivity.
Qed.

(** C8. With zero forcing and a zero solution vector, every iteration
    of the [TimeStepping] loop runs through and leaves the solution
    vector exactly zero: the residual is zero and the solve of a zero
    right-hand side returns zero.  Hence the vector returned in the
    end, and every sample taken on the way, is zero. *)
Theorem zero_state_preserved (N : Numerics) (G : Globals) (M : SparseMatrix)
  (freedofs : BitArray) (inv : InverseMatrix) (n : nat) :
  f_vec G = vzero n ->
  height (a_mat G) = n -> width (a_mat G) = n ->
  Inverse M freedofs = Ok inv -> height M = n ->
  (forall sample_int s,
     sample_int <> 0%Z -> gfu_vec s = vzero n ->
     exists s', TimeStepping_body G (inv_mult inv) sample_int s = Ok s' /\
                gfu_vec s' = vzero n) /\
  (forall initial_cond t0 tend nsamples gfu0 fuel s,
     match initial_cond with
     | Some cf => Set_all N (gfu_space G) cf
     | None => gfu0
     end = vzero n ->
     TimeStepping N G (inv_mult inv) initial_cond t0 tend nsamples gfu0 fuel
       = Some (Ok s) ->
     gfu_vec s = vzero n /\ Forall (fun u => u = vzero n) (gfut s)).
Proof.
  intros Hf Hh Hw HI HM.
  assert (Hstep : forall sample_int s s',
            gfu_vec s = vzero n ->
            TimeStepping_body G (inv_mult inv) sample_int s = Ok s' ->
            gfu_vec s' = vzero n /\
            (Forall (fun u => u = vzero n) (gfut s) ->
             Forall (fun u => u = vzero n) (gfut s'))).
  { intros si s s' Hs Hb. unfold TimeStepping_body in Hb.
    rewrite Hs, (euler_update_zero G M freedofs inv n Hf Hh Hw HI HM) in Hb.
    cbn [bind] in Hb.
    destruct (sampled (cnt s) si) as [keep|]; cbn [bind] in Hb; [|discriminate].
    inversion Hb; subst s'. simpl. split; [reflexivity|].
    intros Hall. destruct keep; [|exact Hall].
    apply Forall_app. split; [exact Hall|]. constructor; [reflexivity|constructor]. }
  split.
  - intros si s Hsi Hs. unfold TimeStepping_body.
    rewrite Hs, (euler_update_zero G M freedofs inv n Hf Hh Hw HI HM). cbn [bind].
    rewrite (sampled_Ok _ _ Hsi). cbn [bind]. eexists; split; reflexivity.
  - intros ic t0 tend ns gfu0 fuel s Hu0 H. unfold TimeStepping in H.
    destruct (sample_interval G tend ns) as [si|]; [|discriminate].
    rewrite Hu0 in H.
    apply (while_invariant
             (fun s => gfu_vec s = vzero n /\ Forall (fun u => u = vzero n) (gfut s)))
      in H.
    + destruct H as (H & _). exact H.
    + intros s1 s2 (H1 & H2) _ Hb.
      destruct (Hstep si s1 s2 H1 Hb) as (H3 & H4). split; [exact H3|exact (H4 H2)].
    + simpl. split; [reflexivity|]. constructor; [reflexivity|constructor].
Qed.

Lemma zero_state_preserved_witness :
  exists s',
    TimeStepping_body toy_G0 (inv_mult toy_inv) 1 (mkTS (vzero 3) 0 0 [vzero 3] [])
      = Ok s' /\
    gfu_vec s' = vzero 3.
Proof.
  destruct (zero_state_preserved toy_numerics toy_G0 toy_mstar (FreeDofs toy_fes)
              toy_inv 3) as (H & _).
  - reflexivity.
  - reflexivity.
  - reflexivity.
  - vm_compute. reflexivity.
  - reflexivity.
  - apply (H 1%Z); [discriminate|reflexivity].
Defined.

(** ** parabolic.ipynb: [TimeStepping] and [TimeSteppingVTK] *)







(** ** Dirichlet tutorial: the constrained entries *)

Lemma nth_bit_in_range (mask : BitArray) i b :
  nth i mask (negb b) = b -> (i < length mask)%nat.
Proof.
  intros H. destruct (Nat.lt_ge_cases i (length mask)) as [Hlt|Hge]; [exact Hlt|].
  rewrite nth_overflow in H by exact Hge. destruct b; discriminate.
Qed.

Lemma solve_free_Ok A freedofs f gfu u :
  solve_free A freedofs f gfu = Ok u ->
  exists Au r inv delta,
    matvec A gfu = Ok Au /\ vsub f Au = Ok r /\
    Inverse A freedofs = Ok inv /\ inv_mult inv r = Ok delta /\
    length gfu = length delta /\ u = zipwith Qcplus gfu delta.
Proof.
  unfold solve_free. intros H.
  destruct (matvec A gfu) as [Au|] eqn:HA; cbn [bind] in H; [|discriminate].
  destruct (vsub f Au) as [r|] eqn:Hr; cbn [bind] in H; [|discriminate].
  destruct (Inverse A freedofs) as [inv|] eqn:HI; cbn [bind] in H; [|discriminate].
  destruct (inv_mult inv r) as [delta|] eqn:Hd; cbn [bind] in H; [|discriminate].
  exists Au, r, inv, delta. unfold vadd in H.
  destruct (Nat.eqb (length gfu) (length delta)) eqn:E; [|discriminate].
  apply Nat.eqb_eq in E. inversion H. repeat split; auto.
Qed.


Lemma extension_constrained (h : nat -> Qc) (mask : BitArray) : forall k i,
  nth i mask true = false ->
  nth i (zipwith (fun (free : bool) j => if free then 0 else h j)
                 mask (seq k (length mask))) 0
  = h (k + i)%nat.
Proof.
  induction mask as [|b mask IH]; intros k i Hb.
  - destruct i; discriminate.
  - destruct i as [|i]; simpl in *.
    + subst b. rewrite Nat.add_0_r. reflexivity.
    + rewrite (IH (S k) i Hb). f_equal. lia.
Qed.

Lemma Set_BND_constrained N fes cf i :
  length (FreeDofs fes) = ndof fes ->
  nth i (FreeDofs fes) true = false ->
  vnth (Set_BND N fes cf) i = interpolate N fes cf i.
Proof.
  unfold Set_BND, vnth. intros Hl Hb. rewrite <- Hl.
  apply (extension_constrained (interpolate N fes cf) (FreeDofs fes) 0 i Hb).
Qed.

Lemma H1_FreeDofs_length mesh order dirichlet dirichlet_bbnd :
  length (FreeDofs (H1 mesh order dirichlet dirichlet_bbnd))
  = ndof (H1 mesh order dirichlet dirichlet_bbnd).
Proof. unfold H1. simpl. apply length_map. Qed.

(** C4. The solve restricted to the free dofs leaves the constrained
    entries as they are: [a.mat.Inverse(freedofs=fes.FreeDofs()) * r]
    is zero at every constrained dof, so after the update each
    constrained entry of [gfu.vec] holds what it held before, and only
    free entries change.  In the Dirichlet tutorial what it held
    before is the boundary value written by [gfu.Set(g, BND)]. *)
Theorem constrained_entries_untouched (A : SparseMatrix) (freedofs : BitArray)
  (f gfu u : BaseVector) :
  solve_free A freedofs f gfu = Ok u ->
  (exists r inv delta,
     Inverse A freedofs = Ok inv /\ inv_mult inv r = Ok delta /\
     u = zipwith Qcplus gfu delta /\
     forall i, nth i freedofs true = false -> vnth delta i = 0) /\
  (forall i, nth i freedofs true = false -> vnth u i = vnth gfu i) /\
  (forall i, vnth u i <> vnth gfu i -> nth i freedofs false = true) /\
  (forall N mesh uD u',
     dirichlet_tutorial N mesh = Ok (uD, u') ->
     forall i, nth i (FreeDofs (dirichlet_fes mesh)) true = false ->
       vnth uD i = interpolate N (dirichlet_fes mesh) g i /\
       vnth u' i = interpolate N (dirichlet_fes mesh) g i).
Proof.
  assert (Hframe : forall A freedofs f gfu u,
            solve_free A freedofs f gfu = Ok u ->
            (exists r inv delta,
               Inverse A freedofs = Ok inv /\ inv_mult inv r = Ok delta /\
               u = zipwith Qcplus gfu delta /\
               forall i, nth i freedofs true = false -> vnth delta i = 0) /\
            forall i, nth i freedofs true = false -> vnth u i = vnth gfu i).
  { clear. intros A freedofs f gfu u H.
    destruct (solve_free_Ok _ _ _ _ _ H) as (Au & r & inv & delta & _ & _ & HI & Hd & Hl & Hu).
    destruct (Inverse_Ok _ _ _ HI) as (HM & HF & Hsq & Hfl).
    destruct (inv_mult_spec inv r delta) as (Hdl & Hzero & _);
      rewrite ?HM, ?HF; auto.
    rewrite HM, HF in *.
    split; [exists r, inv, delta; auto|].
    intros i Hi. pose proof (nth_bit_in_range freedofs i false Hi) as Hlt.
    rewrite Hu, vnth_zipwith by congruence. rewrite (Hzero i Hi). ring. }
  intros H. destruct (Hframe _ _ _ _ _ H) as (H1 & H2).
  split; [exact H1|]. split; [exact H2|]. split.
  - intros i Hne. destruct (nth i freedofs false) eqn:E; [reflexivity|].
    exfalso. apply Hne. apply H2.
    destruct (Nat.lt_ge_cases i (length freedofs)) as [Hlt|Hge].
    + rewrite (nth_indep _ true false Hlt). exact E.
    + exfalso. apply Hne.
      destruct (solve_free_Ok _ _ _ _ _ H)
        as (Au & r & inv & delta & _ & _ & HI & Hd & Hl & Hu).
      destruct (Inverse_Ok _ _ _ HI) as (HM & HF & Hsq & Hfl).
      pose proof (inv_mult_length _ _ _ _ _ HI Hd) as Hdl.
      unfold vnth. rewrite !nth_overflow; [reflexivity|lia|].
      rewrite Hu, zipwith_length by exact Hl. lia.
  - intros N mesh uD u' Ht i Hi. unfold dirichlet_tutorial in Ht.
    destruct (Assemble N no_gf (laplace_form (dirichlet_fes mesh))) as [A'|];
      cbn [bind] in Ht; [|discriminate].
    destruct (AssembleLF N no_gf (unit_source (dirichlet_fes mesh))) as [f'|];
      cbn [bind] in Ht; [|discriminate].
    destruct (solve_free A' _ f' _) as [w|] eqn:Hw; cbn [bind] in Ht; [|discriminate].
    inversion Ht; subst uD u'; clear Ht.
    destruct (Hframe _ _ _ _ _ Hw) as (_ & Hfr).
    assert (HuD : vnth (Set_BND N (dirichlet_fes mesh) g) i
                  = interpolate N (dirichlet_fes mesh) g i).
    { apply Set_BND_constrained; [apply H1_FreeDofs_length|exact Hi]. }
    split; [exact HuD|]. rewrite (Hfr i Hi). exact HuD.
Qed.

Lemma constrained_entries_untouched_witness :
  solve_free toy_a (FreeDofs toy_fes) (f_vec toy_G) toy_u0 = Ok toy_u /\
  vnth toy_u 0 = vnth toy_u0 0 /\ vnth toy_u 2 = vnth toy_u0 2.
Proof.
  assert (H : solve_free toy_a (FreeDofs toy_fes) (f_vec toy_G) toy_u0 = Ok toy_u).
  { vm_compute. reflexivity. }
  split; [exact H|].
  destruct (constrained_entries_untouched _ _ _ _ _ H) as (_ & H2 & _).
  split; apply H2; reflexivity.
Defined.

(** ** Mean curvature flow: the evolution loop *)

Lemma VectorH1_all_free mesh order :
  Forall (fun b => b = true) (FreeDofs (VectorH1 mesh order)).
Proof.
  unfold VectorH1, H1. cbn [FreeDofs]. apply Forall_concat.
  apply Forall_forall. intros l Hl. apply repeat_spec in Hl. subst l.
  apply Forall_forall. intros b Hb. apply in_map_iff in Hb.
  destruct Hb as (d & <- & _). reflexivity.
Qed.

Lemma concat_repeat_length {A} (l : list A) n :
  length (concat (repeat l n)) = (n * length l)%nat.
Proof.
  induction n; simpl; [reflexivity|]. rewrite length_app, IHn. reflexivity.
Qed.

Lemma VectorH1_FreeDofs_length mesh order :
  length (FreeDofs (VectorH1 mesh order)) = ndof (VectorH1 mesh order).
Proof.
  unfold VectorH1, H1. cbn [FreeDofs ndof]. unfold BitArray.
  rewrite concat_repeat_length, length_map. reflexivity.
Qed.

Lemma all_free_nth (mask : BitArray) i :
  Forall (fun b => b = true) mask -> (i < length mask)%nat ->
  nth i mask false = true.
Proof.
  intros H Hi. rewrite Forall_forall in H. apply H. apply nth_In. exact Hi.
Qed.

Lemma AssembleLF_Ok N env f v :
  AssembleLF N env f = Ok v -> length v = ndof (lf_space f).
Proof.
  unfold AssembleLF.
  intros H; inversion H. rewrite length_map, length_seq. reflexivity.
Qed.

Lemma vector_ext (u v : BaseVector) :
  length u = length v ->
  (forall i, (i < length u)%nat -> vnth u i = vnth v i) -> u = v.
Proof. intros Hl H. apply (nth_ext u v 0 0 Hl H). Qed.

(** With every dof free, [inv * r] solves the whole system. *)
Lemma inv_mult_all_free M freedofs inv r x :
  Inverse M freedofs = Ok inv -> Forall (fun b => b = true) freedofs ->
  inv_mult inv r = Ok x -> matvec M x = Ok r.
Proof.
  intros HI Hall Hx. destruct (Inverse_Ok _ _ _ HI) as (HM & HF & Hsq & Hl).
  destruct (inv_mult_spec inv r x) as (Hxl & _ & Hrows); rewrite ?HM, ?HF; auto.
  rewrite HM, HF in *.
  assert (Hr : length r = height M).
  { unfold inv_mult in Hx. rewrite HM in Hx.
    destruct (Nat.eqb_spec (length r) (height M)); [assumption|discriminate]. }
  rewrite matvec_Ok by congruence. f_equal.
  apply vector_ext.
  - rewrite length_map, length_seq. congruence.
  - intros i Hi. rewrite length_map, length_seq in Hi.
    rewrite vnth_map_seq by exact Hi.
    apply Hrows; [exact Hi|]. apply all_free_nth; [exact Hall|lia].
Qed.

Lemma mcf_body_Ok N V tau s s' :
  mcf_body N V tau s = Ok s' ->
  exists M' l' Minv' X' dX',
    Assemble N (mcf_env s) (M_form V tau) = Ok M' /\
    AssembleLF N (mcf_env s) (l_form V) = Ok l' /\
    Update (Minv s) M' = Ok Minv' /\
    inv_mult Minv' l' = Ok X' /\
    vsub X' (Idh s) = Ok dX' /\
    s' = mkMCF (mc_i s + 1)%Z (mc_t s + tau) M' l' Minv' X' dX' (Idh s)
           (mc_trace s
            ++ [McPrint (mc_t s); McAssembleM; McAssembleL; McUpdate; McSolve; McDeform]
            ++ (if Z.eqb (mc_i s mod 10) 0 then [McRedraw] else [])).
Proof.
  unfold mcf_body. intros H.
  destruct (Assemble N (mcf_env s) (M_form V tau)) as [M'|] eqn:HM;
    cbn [bind] in H; [|discriminate].
  destruct (AssembleLF N (mcf_env s) (l_form V)) as [l'|] eqn:Hl;
    cbn [bind] in H; [|discriminate].
  destruct (Update (Minv s) M') as [Minv'|] eqn:HU; cbn [bind] in H; [|discriminate].
  destruct (inv_mult Minv' l') as [X'|] eqn:HX; cbn [bind] in H; [|discriminate].
  destruct (vsub X' (Idh s)) as [dX'|] eqn:Hd; cbn [bind] in H; [|discriminate].
  inversion H. exists M', l', Minv', X', dX'. repeat split; auto.
Qed.

Lemma fresh_at_solve_step : forall tr a b c redraw,
  fresh_at_solve a b c tr = true ->
  (redraw = [] \/ redraw = [McRedraw]) ->
  forall t,
    fresh_at_solve a b c
      (tr ++ [McPrint t; McAssembleM; McAssembleL; McUpdate; McSolve; McDeform] ++ redraw)
    = true.
Proof.
  induction tr as [|e tr IH]; intros a b c redraw H Hr t.
  - destruct Hr; subst redraw; reflexivity.
  - destruct e; simpl in *; try (apply IH; assumption).
    apply andb_prop in H. destruct H as (H1 & H2). rewrite H1. simpl.
    apply IH; assumption.
Qed.

Lemma mcf_reachable_invariant N mesh order_p Tend tau s :
  mcf_reachable N mesh order_p Tend tau s ->
  inv_freedofs (Minv s) = FreeDofs (VectorH1 mesh order_p) /\
  factor_of (Minv s) = M_mat s /\
  Idh s = Set_all N (VectorH1 mesh order_p) identity_cf /\
  fresh_at_solve false false false (mc_trace s) = true.
Proof.
  induction 1 as [s Hinit|s s' Hr IH Hg Hb].
  - unfold mcf_init in Hinit.
    destruct (Assemble _ _ _) as [M0|]; cbn [bind] in Hinit; [|discriminate].
    destruct (Inverse M0 _) as [Minv0|] eqn:HI; cbn [bind] in Hinit; [|discriminate].
    destruct (AssembleLF _ _ _) as [l0|]; cbn [bind] in Hinit; [|discriminate].
    inversion Hinit; subst s. cbn [Minv M_mat Idh mc_trace].
    destruct (Inverse_Ok _ _ _ HI) as (HM & HF & _ & _). auto.
  - destruct IH as (IF & _ & II & IT).
    destruct (mcf_body_Ok _ _ _ _ _ Hb) as (M' & l' & Minv' & X' & dX' & _ & _ & HU & _ & _ & ->).
    cbn [Minv M_mat Idh mc_trace].
    unfold Update in HU. destruct (Inverse_Ok _ _ _ HU) as (HM & HF & _ & _).
    split; [congruence|]. split; [exact HM|]. split; [exact II|].
    apply fresh_at_solve_step; [exact IT|].
    destruct (Z.eqb (mc_i s mod 10) 0); auto.
Qed.

(** The evolution loop only goes through reachable states. *)
Lemma mcf_loop_reachable N mesh order_p Tend tau fuel s s' :
  mcf_reachable N mesh order_p Tend tau s ->
  mcf_loop N (VectorH1 mesh order_p) Tend tau fuel s = Some (Ok s') ->
  mcf_reachable N mesh order_p Tend tau s' /\ mcf_guard Tend tau s' = false.
Proof.
  intros Hs H. unfold mcf_loop in H.
  apply (while_invariant (mcf_reachable N mesh order_p Tend tau)) in H; [exact H| |exact Hs].
  intros s1 s2 H1 Hg Hb. apply (reach_step _ _ _ _ _ s1 s2 H1 Hg Hb).
Qed.

(** On the small surface the loop runs two steps up to [Tend = 1/4]
    with [tau = 1/10]. *)
Example mcf_toy_run :
  exists s,
    mcf_loop toy_numerics (VectorH1 toy_surface 2) toy_Tend toy_tau 10 toy_mcf0
    = Some (Ok s) /\
    mc_i s = 2%Z /\ fresh_at_solve false false false (mc_trace s) = true.
Proof. vm_compute. eexists. repeat split. Qed.

Lemma Assemble_M_form N env mesh order_p tau :
  exists M', Assemble N env (M_form (VectorH1 mesh order_p) tau) = Ok M'.
Proof. eexists. reflexivity. Qed.

Lemma AssembleLF_l_form N env mesh order_p :
  exists l', AssembleLF N env (l_form (VectorH1 mesh order_p)) = Ok l'.
Proof. eexists. reflexivity. Qed.

(** A step of the evolution loop can only fail in the factorisation. *)
Lemma mcf_body_defined N mesh order_p Tend tau s M' inv :
  mcf_reachable N mesh order_p Tend tau s ->
  Assemble N (mcf_env s) (M_form (VectorH1 mesh order_p) tau) = Ok M' ->
  Inverse M' (FreeDofs (VectorH1 mesh order_p)) = Ok inv ->
  exists s', mcf_body N (VectorH1 mesh order_p) tau s = Ok s'.
Proof.
  intros Hr HM HI.
  destruct (mcf_reachable_invariant _ _ _ _ _ _ Hr) as (IF & _ & II & _).
  destruct (AssembleLF_l_form N (mcf_env s) mesh order_p) as (l' & Hl).
  destruct (Assemble_Ok _ _ _ _ HM) as (_ & _ & Hh & _ & _).
  pose proof (AssembleLF_Ok _ _ _ _ Hl) as Hll.
  change (bf_space (M_form (VectorH1 mesh order_p) tau))
    with (VectorH1 mesh order_p) in Hh.
  change (lf_space (l_form (VectorH1 mesh order_p)))
    with (VectorH1 mesh order_p) in Hll.
  destruct (inv_mult_defined _ _ _ l' HI) as (X' & HX); [congruence|].
  pose proof (inv_mult_length _ _ _ _ _ HI HX) as HXl.
  unfold mcf_body. rewrite HM. cbn [bind]. rewrite Hl. cbn [bind].
  unfold Update. rewrite IF, HI. cbn [bind]. rewrite HX. cbn [bind].
  rewrite vsub_Ok.
  - cbn [bind]. eexists; reflexivity.
  - rewrite II. unfold Set_all. rewrite length_map, length_seq. congruence.
Qed.

(** C5. Each step of the evolution loop solves [M X = l] on all dofs
    (no dof of the vector space on the closed surface is constrained),
    with [M] assembled from the combined form
    [X*Y + tau*InnerProduct(grad(X).Trace(), grad(Y).Trace())] and [l]
    from the position form [CF((x,y,z))*Y], both integrated over the
    surface deformed by [dXh], then sets [dXh.vec = Xh.vec - Idh.vec]
    and advances the time by [tau]. *)
Theorem evolution_step (N : Numerics) (mesh : Mesh) (order_p : nat) (Tend tau : Qc)
  (s s' : MCFState) :
  mcf_reachable N mesh order_p Tend tau s ->
  mcf_body N (VectorH1 mesh order_p) tau s = Ok s' ->
  Forall (fun b => b = true) (FreeDofs (VectorH1 mesh order_p)) /\
  inv_freedofs (Minv s') = FreeDofs (VectorH1 mesh order_p) /\
  bf_integrators (M_form (VectorH1 mesh order_p) tau)
  = [mkIntegrator
       (CFadd (CFmul (fst TnT) (snd TnT))
              (CFmul (CFnum tau)
                     (CFinner (Trace (grad (fst TnT))) (Trace (grad (snd TnT))))))
       (ds_deformation "dXh")] /\
  bf_space (M_form (VectorH1 mesh order_p) tau) = VectorH1 mesh order_p /\
  lf_integrators (l_form (VectorH1 mesh order_p))
  = [mkIntegrator (CFmul (CFvec3 coord_x coord_y coord_z) (snd TnT))
       (ds_deformation "dXh")] /\
  lf_space (l_form (VectorH1 mesh order_p)) = VectorH1 mesh order_p /\
  Assemble N (mcf_env s) (M_form (VectorH1 mesh order_p) tau) = Ok (M_mat s') /\
  AssembleLF N (mcf_env s) (l_form (VectorH1 mesh order_p)) = Ok (l_vec s') /\
  matvec (M_mat s') (Xh s') = Ok (l_vec s') /\
  Idh s' = Idh s /\
  vsub (Xh s') (Idh s') = Ok (dXh s') /\
  dXh s' = zipwith Qcminus (Xh s') (Idh s') /\
  mc_t s' = mc_t s + tau /\ mc_i s' = (mc_i s + 1)%Z.
Proof.
  intros Hr Hb.
  destruct (mcf_reachable_invariant _ _ _ _ _ _ Hr) as (IF & _ & II & _).
  destruct (mcf_body_Ok _ _ _ _ _ Hb)
    as (M' & l' & Minv' & X' & dX' & HM & Hl & HU & HX & Hd & ->).
  cbn [Minv M_mat l_vec Xh dXh Idh mc_t mc_i].
  unfold Update in HU. rewrite IF in HU.
  destruct (Inverse_Ok _ _ _ HU) as (_ & HF & _ & _).
  split; [apply VectorH1_all_free|]. split; [exact HF|]. split; [reflexivity|].
  split; [reflexivity|]. split; [reflexivity|]. split; [reflexivity|].
  split; [exact HM|]. split; [exact Hl|].
  split; [apply (inv_mult_all_free _ _ _ _ _ HU (VectorH1_all_free mesh order_p) HX)|].
  split; [reflexivity|]. split; [exact Hd|]. split; [|split; reflexivity].
  unfold vsub in Hd. destruct (Nat.eqb _ _); inversion Hd. reflexivity.
Qed.

Lemma evolution_step_witness :
  mcf_body toy_numerics (VectorH1 toy_surface 2) toy_tau toy_mcf0 = Ok toy_mcf1 /\
  matvec (M_mat toy_mcf1) (Xh toy_mcf1) = Ok (l_vec toy_mcf1) /\
  dXh toy_mcf1 = zipwith Qcminus (Xh toy_mcf1) (Idh toy_mcf1) /\
  mc_t toy_mcf1 = mc_t toy_mcf0 + toy_tau.
Proof.
  assert (H0 : mcf_reachable toy_numerics toy_surface 2 toy_Tend toy_tau toy_mcf0).
  { apply reach_init. vm_compute. reflexivity. }
  assert (H1 : mcf_body toy_numerics (VectorH1 toy_surface 2) toy_tau toy_mcf0
               = Ok toy_mcf1).
  { vm_compute. reflexivity. }
  split; [exact H1|].
  destruct (evolution_step _ _ _ _ _ _ _ H0 H1)
    as (_ & _ & _ & _ & _ & _ & _ & _ & H2 & _ & _ & H3 & H4 & _).
  split; [exact H2|]. split; [exact H3|exact H4].
Defined.

(** C6. In every iteration the solve works with a matrix and a
    right-hand side assembled in this very iteration on the geometry
    given by the present [dXh], and with the factorisation updated from
    that matrix: the step's events are
    assemble M, assemble l, update, solve, in this order, and on the
    whole trace every solve finds all three fresh. *)
Theorem solve_on_current_geometry (N : Numerics) (mesh : Mesh) (order_p : nat)
  (Tend tau : Qc) (s s' : MCFState) :
  mcf_reachable N mesh order_p Tend tau s ->
  mcf_body N (VectorH1 mesh order_p) tau s = Ok s' ->
  Forall (fun i => geometry (mcf_env s) i = Some (dXh s))
         (bf_integrators (M_form (VectorH1 mesh order_p) tau)
          ++ lf_integrators (l_form (VectorH1 mesh order_p))) /\
  Assemble N (mcf_env s) (M_form (VectorH1 mesh order_p) tau) = Ok (M_mat s') /\
  AssembleLF N (mcf_env s) (l_form (VectorH1 mesh order_p)) = Ok (l_vec s') /\
  Update (Minv s) (M_mat s') = Ok (Minv s') /\
  factor_of (Minv s') = M_mat s' /\
  inv_mult (Minv s') (l_vec s') = Ok (Xh s') /\
  (exists redraw,
     mc_trace s' = mc_trace s
       ++ [McPrint (mc_t s); McAssembleM; McAssembleL; McUpdate; McSolve; McDeform]
       ++ redraw /\
     (redraw = [] \/ redraw = [McRedraw])) /\
  fresh_at_solve false false false (mc_trace s') = true.
Proof.
  intros Hr Hb.
  destruct (mcf_reachable_invariant _ _ _ _ _ _ Hr) as (_ & _ & _ & IT).
  destruct (mcf_body_Ok _ _ _ _ _ Hb)
    as (M' & l' & Minv' & X' & dX' & HM & Hl & HU & HX & Hd & ->).
  cbn [Minv M_mat l_vec Xh dXh mc_trace].
  unfold Update in HU. destruct (Inverse_Ok _ _ _ HU) as (HF & _ & _ & _).
  split; [repeat constructor|]. split; [exact HM|]. split; [exact Hl|].
  split; [exact HU|]. split; [exact HF|]. split; [exact HX|].
  assert (Hrd : (if Z.eqb (mc_i s mod 10) 0 then [McRedraw] else []) = []
                \/ (if Z.eqb (mc_i s mod 10) 0 then [McRedraw] else []) = [McRedraw]).
  { destruct (Z.eqb (mc_i s mod 10) 0); auto. }
  split; [eexists; split; [reflexivity|exact Hrd]|].
  apply fresh_at_solve_step; assumption.
Qed.

Lemma solve_on_current_geometry_witness :
  mcf_body toy_numerics (VectorH1 toy_surface 2) toy_tau toy_mcf0 = Ok toy_mcf1 /\
  factor_of (Minv toy_mcf1) = M_mat toy_mcf1 /\
  fresh_at_solve false false false (mc_trace toy_mcf1) = true.
Proof.
  assert (H0 : mcf_reachable toy_numerics toy_surface 2 toy_Tend toy_tau toy_mcf0).
  { apply reach_init. vm_compute. reflexivity. }
  assert (H1 : mcf_body toy_numerics (VectorH1 toy_surface 2) toy_tau toy_mcf0
               = Ok toy_mcf1).
  { vm_compute. reflexivity. }
  split; [exact H1|].
  destruct (solve_on_current_geometry _ _ _ _ _ _ _ H0 H1)
    as (_ & _ & _ & _ & H2 & _ & _ & H3).
  auto.
Defined.

(** ** Dirichlet tutorial: free and constrained dofs *)

Lemma filter_none {A} (f : A -> bool) (l : list A) :
  (forall x, In x l -> f x = false) -> filter f l = [].
Proof.
  induction l as [|x l IH]; intros H; simpl; [reflexivity|].
  rewrite (H x (or_introl eq_refl)). apply IH. intros y Hy. apply H. right; exact Hy.
Qed.

Lemma filter_split_length {A} (f : A -> bool) (l : list A) :
  (length (filter f l) + length (filter (fun x => negb (f x)) l))%nat = length l.
Proof.
  induction l as [|x l IH]; simpl; [reflexivity|].
  destruct (f x); simpl; lia.
Qed.

(** C7. For one mesh and one order the dirichlet flags do not change
    [ndof]; [FreeDofs] has one bit per dof, so every dof is either free
    or constrained and never both, the two groups together count
    [ndof]; a dof is constrained exactly when it lies on a marked
    region, and without flags every dof is free. *)
Theorem dof_partition (mesh : Mesh) (order : nat) (dirichlet dirichlet_bbnd : option string) :
  let fes := H1 mesh order dirichlet dirichlet_bbnd in
  let fs2 := H1 mesh order None None in
  ndof fes = ndof fs2 /\
  length (FreeDofs fes) = ndof fes /\
  (forall i, (i < ndof fes)%nat ->
     (In i (free_dofs fes) /\ ~ In i (constrained_dofs fes)) \/
     (In i (constrained_dofs fes) /\ ~ In i (free_dofs fes))) /\
  (forall i, In i (free_dofs fes) \/ In i (constrained_dofs fes) -> (i < ndof fes)%nat) /\
  (length (free_dofs fes) + length (constrained_dofs fes))%nat = ndof fes /\
  (forall i d, nth_error (dofs (h1_table mesh order)) i = Some d ->
     dof_is_free fes i
     = negb (region_match dirichlet (on_boundaries d)
             || region_match dirichlet_bbnd (on_bboundaries d))) /\
  Forall (fun b => b = true) (FreeDofs fs2) /\
  constrained_dofs fs2 = [].
Proof.
  intros fes fs2.
  assert (Hfree2 : Forall (fun b => b = true) (FreeDofs fs2)).
  { unfold fs2, H1. cbn [FreeDofs]. apply Forall_forall. intros b Hb.
    apply in_map_iff in Hb. destruct Hb as (d & <- & _). reflexivity. }
  split; [reflexivity|]. split; [apply H1_FreeDofs_length|].
  split; [|split; [|split; [|split; [|split]]]].
  - intros i Hi. unfold free_dofs, constrained_dofs.
    destruct (dof_is_free fes i) eqn:E; [left|right]; split.
    + apply filter_In. split; [apply in_seq; lia|exact E].
    + intros H. apply filter_In in H. rewrite E in H. destruct H; discriminate.
    + apply filter_In. split; [apply in_seq; lia|rewrite E; reflexivity].
    + intros H. apply filter_In in H. rewrite E in H. destruct H; discriminate.
  - intros i [H|H]; apply filter_In in H; destruct H as (H & _);
      apply in_seq in H; lia.
  - unfold free_dofs, constrained_dofs.
    rewrite filter_split_length, length_seq. reflexivity.
  - intros i d Hd. unfold dof_is_free, fes, H1. cbn [FreeDofs].
    rewrite (nth_indep _ false (is_free dirichlet dirichlet_bbnd d)).
    + rewrite map_nth. rewrite (nth_error_nth _ _ _ Hd). reflexivity.
    + rewrite length_map. apply nth_error_Some. congruence.
  - exact Hfree2.
  - unfold constrained_dofs. apply filter_none.
    intros i Hi. apply in_seq in Hi.
    unfold dof_is_free. rewrite all_free_nth; [reflexivity|exact Hfree2|].
    unfold fs2 in *. rewrite H1_FreeDofs_length. lia.
Qed.

(** ** Linear algebra on the free dofs: uniqueness *)

Lemma dot_add_r : forall w u v,
  length u = length v -> dot w (zipwith Qcplus u v) = dot w u + dot w v.
Proof.
  induction w as [|a w IH]; intros u v H.
  - unfold dot; simpl. ring.
  - destruct u as [|x u], v as [|y v]; try discriminate.
    + simpl zipwith. rewrite !dot_nil_r. ring.
    + simpl zipwith. rewrite !dot_cons, IH by (simpl in H; lia). ring.
Qed.

Lemma dot_sub_r : forall w u v,
  length u = length v -> dot w (zipwith Qcminus u v) = dot w u - dot w v.
Proof.
  induction w as [|a w IH]; intros u v H.
  - unfold dot; simpl. ring.
  - destruct u as [|x u], v as [|y v]; try discriminate.
    + simpl zipwith. rewrite !dot_nil_r. ring.
    + simpl zipwith. rewrite !dot_cons, IH by (simpl in H; lia). ring.
Qed.

Lemma gather_In_inv {A} (mask : BitArray) : forall (v : list A) x,
  In x (gather mask v) ->
  exists i, nth i mask false = true /\ nth_error v i = Some x.
Proof.
  induction mask as [|b mask IH]; intros [|y v] x H; simpl in H; try contradiction.
  destruct b.
  - destruct H as [<-|H].
    + exists 0%nat. split; reflexivity.
    + destruct (IH _ _ H) as (i & H1 & H2). exists (S i). split; assumption.
  - destruct (IH _ _ H) as (i & H1 & H2). exists (S i). split; assumption.
Qed.

(** Every equation of the free system is a free row. *)
Lemma free_system_In M freedofs r e :
  In e (free_system M freedofs r) ->
  exists i, (i < height M)%nat /\ nth i freedofs false = true /\
            e = (gather freedofs (row M i), vnth r i).
Proof.
  unfold free_system. intros H. apply gather_In_inv in H.
  destruct H as (i & Hfree & Hi). exists i.
  assert (Hlt : (i < height M)%nat).
  { match type of Hi with
    | nth_error ?l _ = _ =>
        assert (Hs : nth_error l i <> None)
          by (intros E; pose proof (eq_trans (eq_sym E) Hi) as X; discriminate X)
    end.
    apply nth_error_Some in Hs. rewrite length_map, length_seq in Hs. exact Hs. }
  split; [exact Hlt|]. split; [exact Hfree|].
  apply (nth_error_nth _ _ (gather freedofs (row M 0), vnth r 0)) in Hi.
  rewrite <- Hi.
  rewrite (map_nth (fun i => (gather freedofs (row M i), vnth r i))).
  rewrite seq_nth by exact Hlt. reflexivity.
Qed.

Lemma scatter_gather : forall (mask : BitArray) (w : BaseVector),
  length w = length mask ->
  (forall i, nth i mask true = false -> vnth w i = 0) ->
  scatter mask (gather mask w) = w.
Proof.
  induction mask as [|b mask IH]; intros [|x w] Hl Hz; try discriminate; [reflexivity|].
  simpl in Hl. destruct b; simpl.
  - f_equal. apply IH; [lia|]. intros i Hi. apply (Hz (S i)). exact Hi.
  - rewrite <- (Hz 0%nat eq_refl). unfold vnth; simpl. f_equal.
    apply IH; [lia|]. intros i Hi. apply (Hz (S i)). exact Hi.
Qed.

(** A right-hand side that vanishes on the free rows gives the zero
    vector, whatever it holds on the constrained rows. *)
Lemma inv_mult_zero_on_free M freedofs inv r x :
  Inverse M freedofs = Ok inv ->
  (forall i, (i < height M)%nat -> nth i freedofs false = true -> vnth r i = 0) ->
  inv_mult inv r = Ok x -> x = vzero (height M).
Proof.
  intros HI Hr H. destruct (Inverse_Ok _ _ _ HI) as (HM & HF & Hsq & Hlen).
  unfold inv_mult in H. rewrite HM, HF in H.
  destruct (Nat.eqb (length r) (height M)); [|discriminate].
  destruct (solve _ _) as [xs|] eqn:Hs; [|discriminate].
  inversion H; subst x; clear H.
  assert (Hz : xs = vzero (NumSet freedofs)).
  { apply (solve_homogeneous _ _ _) with (2 := Hs).
    intros e He. apply free_system_In in He.
    destruct He as (i & Hi & Hfree & ->). simpl. apply Hr; assumption. }
  rewrite Hz, scatter_vzero, Hlen. reflexivity.
Qed.

Lemma eliminate_satisfied p e c cs e1 es y0 ys :
  fst p = c :: cs -> fst e = e1 :: es -> c <> 0 ->
  length es = length cs ->
  satisfies (y0 :: ys) p -> satisfies (y0 :: ys) e ->
  satisfies ys (eliminate p e).
Proof.
  unfold satisfies, eliminate, lead. intros Hp He Hc Hl H1 H2.
  rewrite Hp, He in *. simpl. rewrite dot_cons in H1, H2.
  rewrite dot_eliminated by exact Hl. rewrite <- H1, <- H2. field. exact Hc.
Qed.

(** The elimination finds the only solution. *)
Lemma solve_unique : forall k eqs xs,
  length eqs = k ->
  (forall e, In e eqs -> length (fst e) = k) ->
  solve k eqs = Some xs ->
  forall ys, length ys = k -> (forall e, In e eqs -> satisfies ys e) -> ys = xs.
Proof.
  induction k as [|k IH]; intros eqs xs Hn Hw H ys Hy Hsat; simpl in H.
  - inversion H; subst. destruct ys; [reflexivity|discriminate].
  - destruct (pick_pivot eqs) as [[p others]|] eqn:Hp; [|discriminate].
    destruct (solve k (map (eliminate p) others)) as [zs|] eqn:Hs; [|discriminate].
    inversion H; subst xs; clear H.
    destruct (pick_pivot_spec _ _ _ Hp) as (Hlead & Hlen & Hpin & Hoin & Hin).
    destruct (fst p) as [|c cs] eqn:Hfp.
    { specialize (Hw p Hpin). rewrite Hfp in Hw. discriminate. }
    assert (Hcs : length cs = k).
    { specialize (Hw p Hpin). rewrite Hfp in Hw. simpl in Hw. lia. }
    assert (Hc : c <> 0).
    { unfold lead in Hlead. rewrite Hfp in Hlead. exact Hlead. }
    destruct ys as [|y0 ys]; [discriminate|].
    assert (Hys : ys = zs).
    { apply (IH (map (eliminate p) others) zs).
      - rewrite length_map. unfold Equation in *. lia.
      - intros e He. apply in_map_iff in He. destruct He as (e' & <- & He').
        unfold eliminate. simpl. rewrite Hfp. simpl.
        specialize (Hw e' (Hoin _ He')).
        destruct (fst e') as [|e1 es]; [discriminate|]. simpl in *.
        rewrite zipwith_length; lia.
      - exact Hs.
      - simpl in Hy. lia.
      - intros e He. apply in_map_iff in He. destruct He as (e' & <- & He').
        pose proof (Hw e' (Hoin _ He')) as Hwe.
        destruct (fst e') as [|e1 es] eqn:Hfe; [discriminate|].
        apply (eliminate_satisfied p e' c cs e1 es y0 ys); auto.
        simpl in Hwe. lia. }
    subst zs. unfold lead. rewrite Hfp. simpl hd. simpl tl. f_equal.
    pose proof (Hsat p Hpin) as Hpy. unfold satisfies in Hpy.
    rewrite Hfp, dot_cons in Hpy. rewrite <- Hpy. field. exact Hc.
Qed.

(** Two vectors that agree on the constrained dofs and give the same
    products with the free rows of a factorisable matrix are equal. *)
Lemma free_rows_determine M freedofs inv (u v : BaseVector) :
  Inverse M freedofs = Ok inv ->
  length u = height M -> length v = height M ->
  (forall i, nth i freedofs true = false -> vnth u i = vnth v i) ->
  (forall i, (i < height M)%nat -> nth i freedofs false = true ->
     dot (row M i) u = dot (row M i) v) ->
  u = v.
Proof.
  intros HI Hu Hv Hcon Hrows.
  destruct (Inverse_Ok _ _ _ HI) as (_ & _ & Hsq & Hlen).
  set (w := zipwith Qcminus u v).
  assert (Hwl : length w = height M).
  { unfold w. rewrite zipwith_length; lia. }
  assert (Hwn : forall i, (i < height M)%nat -> vnth w i = vnth u i - vnth v i).
  { intros i Hi. unfold w. apply vnth_zipwith; lia. }
  assert (Hwc : forall i, nth i freedofs true = false -> vnth w i = 0).
  { intros i Hi. rewrite Hwn.
    - rewrite (Hcon i Hi). ring.
    - rewrite <- Hlen. apply (nth_bit_in_range freedofs i false). exact Hi. }
  assert (Hsg : scatter freedofs (gather freedofs w) = w).
  { apply scatter_gather; [lia|exact Hwc]. }
  assert (Hgl : length (gather freedofs w) = NumSet freedofs).
  { apply gather_length. lia. }
  unfold Inverse in HI.
  destruct (Nat.eqb (height M) (width M) && Nat.eqb (length freedofs) (height M));
    [|discriminate].
  destruct (solve (NumSet freedofs) (free_system M freedofs (vzero (height M))))
    as [zs|] eqn:Hs; [|discriminate].
  destruct (free_system_wf M freedofs (vzero (height M)) Hsq Hlen) as (Hn & Hw).
  assert (Hz : zs = vzero (NumSet freedofs)).
  { apply (solve_homogeneous _ _ _) with (2 := Hs).
    intros e He. apply free_system_In in He.
    destruct He as (i & _ & _ & ->). simpl. apply vnth_vzero. }
  assert (Hg : gather freedofs w = zs).
  { apply (solve_unique _ _ _ Hn Hw Hs _ Hgl).
    intros e He. apply free_system_In in He.
    destruct He as (i & Hi & Hfree & ->). unfold satisfies. simpl.
    rewrite vnth_vzero, <- dot_scatter by (rewrite ?row_length; lia).
    rewrite Hsg. unfold w. rewrite dot_sub_r by lia.
    rewrite (Hrows i Hi Hfree). ring. }
  rewrite Hg, Hz, scatter_vzero in Hsg.
  apply vector_ext; [lia|]. intros i Hi.
  assert (Hd : vnth u i - vnth v i = 0).
  { rewrite <- Hwn by lia. rewrite <- Hsg. apply vnth_vzero. }
  rewrite <- (Qcplus_0_r (vnth v i)), <- Hd. ring.
Qed.

(** ** Solving for the free dofs: what the result is *)

Lemma vnth_vscale c v i : vnth (vscale c v) i = c * vnth v i.
Proof.
  unfold vnth, vscale. replace 0 with (c * 0) at 1 by ring. apply map_nth.
Qed.

Lemma zipwith_plus_vzero_r : forall (u : BaseVector) n,
  length u = n -> zipwith Qcplus u (vzero n) = u.
Proof.
  induction u as [|x u IH]; intros [|n] H; try discriminate; [reflexivity|].
  change (vzero (S n)) with (0 :: vzero n). simpl. f_equal; [ring|].
  apply IH. simpl in H. lia.
Qed.

Lemma zipwith_plus_vzero_l : forall (u : BaseVector) n,
  length u = n -> zipwith Qcplus (vzero n) u = u.
Proof.
  induction u as [|x u IH]; intros [|n] H; try discriminate; [reflexivity|].
  change (vzero (S n)) with (0 :: vzero n). simpl. f_equal; [ring|].
  apply IH. simpl in H. lia.
Qed.

Lemma zipwith_minus_vzero_r : forall (u : BaseVector) n,
  length u = n -> zipwith Qcminus u (vzero n) = u.
Proof.
  induction u as [|x u IH]; intros [|n] H; try discriminate; [reflexivity|].
  change (vzero (S n)) with (0 :: vzero n). simpl. f_equal; [ring|].
  apply IH. simpl in H. lia.
Qed.

Lemma matvec_length M x y : matvec M x = Ok y -> width M = length x /\ length y = height M.
Proof.
  unfold matvec. destruct (Nat.eqb_spec (width M) (length x)) as [E|E]; [|discriminate].
  intros H; inversion H; subst y. rewrite length_map, length_seq. auto.
Qed.

Lemma matvec_vnth M x y i :
  matvec M x = Ok y -> (i < height M)%nat -> vnth y i = dot (row M i) x.
Proof.
  unfold matvec. destruct (Nat.eqb (width M) (length x)); [|discriminate].
  intros H Hi; inversion H; subst y.
  apply (vnth_map_seq (fun i => dot (row M i) x)). exact Hi.
Qed.

Lemma vsub_length u v r : vsub u v = Ok r -> length u = length v /\ length r = length u.
Proof.
  unfold vsub. destruct (Nat.eqb_spec (length u) (length v)) as [E|E]; [|discriminate].
  intros H; inversion H; subst r. rewrite zipwith_length by exact E. auto.
Qed.

Lemma vsub_vnth u v r i :
  vsub u v = Ok r -> (i < length u)%nat -> vnth r i = vnth u i - vnth v i.
Proof.
  unfold vsub. destruct (Nat.eqb_spec (length u) (length v)) as [E|E]; [|discriminate].
  intros H Hi; inversion H; subst r. apply vnth_zipwith; assumption.
Qed.

(** The result of [solve_free]: the entries of [gfu] on the constrained
    dofs, and on the free rows a solution of the equations. *)
Lemma solve_free_spec A freedofs f gfu u :
  solve_free A freedofs f gfu = Ok u ->
  length u = height A /\ length gfu = height A /\ length f = height A /\
  (exists inv, Inverse A freedofs = Ok inv) /\
  (forall i, nth i freedofs true = false -> vnth u i = vnth gfu i) /\
  (forall i, (i < height A)%nat -> nth i freedofs false = true ->
     dot (row A i) u = vnth f i).
Proof.
  intros H. destruct (solve_free_Ok _ _ _ _ _ H)
    as (Au & r & inv & delta & HAu & Hr & HI & Hd & Hlen & ->).
  destruct (Inverse_Ok _ _ _ HI) as (HM & HF & Hsq & Hfl).
  destruct (matvec_length _ _ _ HAu) as (Hw & HAul).
  destruct (vsub_length _ _ _ Hr) as (Hfl' & Hrl).
  pose proof (inv_mult_length _ _ _ _ _ HI Hd) as Hdl.
  assert (Hspec := inv_mult_spec inv r delta). rewrite HM, HF in Hspec.
  destruct (Hspec Hsq Hfl Hd) as (_ & Hzero & Hrows).
  split; [rewrite zipwith_length; lia|]. split; [lia|]. split; [lia|].
  split; [exists inv; exact HI|]. split.
  - intros i Hi.
    assert (Hlt : (i < length gfu)%nat).
    { rewrite Hlen, Hdl, <- Hfl. apply (nth_bit_in_range freedofs i false). exact Hi. }
    rewrite vnth_zipwith by assumption. rewrite (Hzero i Hi). ring.
  - intros i Hi Hfree. rewrite dot_add_r by exact Hlen.
    rewrite (Hrows i Hi Hfree), (vsub_vnth _ _ _ _ Hr) by lia.
    rewrite (matvec_vnth _ _ _ _ HAu Hi). ring.
Qed.

(** X1. After [gfu.vec.data += a.mat.Inverse(freedofs=fes.FreeDofs()) * r]
    with [r = f.vec - a.mat * gfu.vec], the new vector satisfies the
    equation [(A u)_i = f_i] of every free dof [i]. *)
Theorem solve_free_free_rows (A : SparseMatrix) (freedofs : BitArray)
  (f gfu u : BaseVector) :
  solve_free A freedofs f gfu = Ok u ->
  exists Au,
    matvec A u = Ok Au /\
    forall i, (i < height A)%nat -> nth i freedofs false = true ->
      vnth Au i = vnth f i.
Proof.
  intros H. destruct (solve_free_spec _ _ _ _ _ H) as (Hu & _ & _ & (inv & HI) & _ & Hrows).
  destruct (Inverse_Ok _ _ _ HI) as (_ & _ & Hsq & _).
  eexists. split; [apply matvec_Ok; lia|].
  intros i Hi Hfree.
  rewrite (vnth_map_seq (fun i => dot (row A i) u)) by exact Hi.
  apply Hrows; assumption.
Qed.

Lemma solve_free_free_rows_witness :
  exists Au, matvec toy_a toy_u = Ok Au /\ vnth Au 1 = vnth (f_vec toy_G) 1.
Proof.
  destruct (solve_free_free_rows toy_a (FreeDofs toy_fes) (f_vec toy_G) toy_u0 toy_u)
    as (Au & H1 & H2).
  - vm_compute. reflexivity.
  - exists Au. split; [exact H1|]. apply H2; [vm_compute; lia|vm_compute; reflexivity].
Defined.





(** ** surface_pdes.ipynb: solving with homogeneous data *)

Lemma direct_solve_spec A freedofs f u :
  direct_solve A freedofs f = Ok u ->
  length u = height A /\ length f = height A /\
  (exists inv, Inverse A freedofs = Ok inv) /\
  (forall i, nth i freedofs true = false -> vnth u i = 0) /\
  (forall i, (i < height A)%nat -> nth i freedofs false = true ->
     dot (row A i) u = vnth f i).
Proof.
  unfold direct_solve. intros H.
  destruct (Inverse A freedofs) as [inv|e] eqn:HI; cbn [bind] in H; [|discriminate].
  destruct (Inverse_Ok _ _ _ HI) as (HM & HF & Hsq & Hfl).
  assert (Hspec := inv_mult_spec inv f u). rewrite HM, HF in Hspec.
  destruct (Hspec Hsq Hfl H) as (Hl & Hzero & Hrows).
  split; [exact Hl|]. split.
  - unfold inv_mult in H. rewrite HM in H.
    destruct (Nat.eqb_spec (length f) (height A)); [assumption|discriminate].
  - split; [exists inv; reflexivity|]. split; assumption.
Qed.


(** X5. [a.mat.Inverse(fes.FreeDofs())*f.vec] is the one vector that is
    zero on the constrained dofs and satisfies the equations of the
    free dofs. *)
Theorem direct_solve_characterised (A : SparseMatrix) (freedofs : BitArray)
  (f u : BaseVector) :
  direct_solve A freedofs f = Ok u ->
  length u = height A /\
  (forall i, nth i freedofs true = false -> vnth u i = 0) /\
  (forall i, (i < height A)%nat -> nth i freedofs false = true ->
     dot (row A i) u = vnth f i) /\
  (forall w, length w = height A ->
     (forall i, nth i freedofs true = false -> vnth w i = 0) ->
     (forall i, (i < height A)%nat -> nth i freedofs false = true ->
        dot (row A i) w = vnth f i) ->
     w = u).
Proof.
  intros H. destruct (direct_solve_spec _ _ _ _ H) as (Hu & _ & (inv & HI) & Hc & Hr).
  split; [exact Hu|]. split; [exact Hc|]. split; [exact Hr|].
  intros w Hw Hwc Hwr. apply (free_rows_determine A freedofs inv); auto.
  - intros i Hi. rewrite (Hwc i Hi), (Hc i Hi). reflexivity.
  - intros i Hi Hfree. rewrite (Hwr i Hi Hfree), (Hr i Hi Hfree). reflexivity.
Qed.

Lemma direct_solve_characterised_witness :
  length toy_direct = height toy_a /\ vnth toy_direct 0 = 0 /\ vnth toy_direct 2 = 0.
Proof.
  destruct (direct_solve_characterised toy_a (FreeDofs toy_fes) (f_vec toy_G) toy_direct)
    as (H1 & H2 & _).
  - vm_compute. reflexivity.
  - split; [exact H1|]. split; apply H2; reflexivity.
Defined.

(** X6. With zero boundary data the two solve lines of the Dirichlet
    tutorial reduce to the one line used for homogeneous data: on a
    zero vector [gfu.vec], [r = f.vec - a.mat * gfu.vec] followed by
    [gfu.vec.data += Inverse * r] has the outcome of
    [gfu.vec.data = Inverse * f.vec], errors included. *)
Theorem solve_free_zero_data (A : SparseMatrix) (freedofs : BitArray) (f : BaseVector) :
  length f = height A ->
  solve_free A freedofs f (vzero (height A)) = direct_solve A freedofs f.
Proof.
  intros Hf. unfold solve_free, direct_solve.
  destruct (Nat.eqb_spec (height A) (width A)) as [Hsq|Hsq].
  - rewrite matvec_vzero by lia. cbn [bind].
    rewrite vsub_Ok by (rewrite vzero_length; exact Hf). cbn [bind].
    rewrite zipwith_minus_vzero_r by exact Hf.
    destruct (Inverse A freedofs) as [inv|e] eqn:HI; cbn [bind]; [|reflexivity].
    destruct (inv_mult inv f) as [x|e] eqn:Hx; cbn [bind]; [|reflexivity].
    pose proof (inv_mult_length _ _ _ _ _ HI Hx) as Hxl.
    rewrite vadd_Ok by (rewrite vzero_length; lia).
    rewrite zipwith_plus_vzero_l by exact Hxl. reflexivity.
  - unfold matvec, Inverse. rewrite vzero_length.
    destruct (Nat.eqb_spec (width A) (height A)) as [E|_]; [lia|].
    destruct (Nat.eqb_spec (height A) (width A)) as [E|_]; [lia|]. reflexivity.
Qed.

Lemma solve_free_zero_data_witness :
  solve_free toy_a (FreeDofs toy_fes) (f_vec toy_G) (vzero 3)
  = direct_solve toy_a (FreeDofs toy_fes) (f_vec toy_G).
Proof.
  apply (solve_free_zero_data toy_a (FreeDofs toy_fes) (f_vec toy_G)).
  vm_compute. reflexivity.
Defined.





(** ** parabolic.ipynb: more on the implicit Euler step *)

(** X11. One implicit Euler step in the form of the notebook's text: on
    every free row [(M + dt A) u' = M u + dt f], with [mstar] for
    [M + dt A], and the step leaves the constrained entries alone. *)
Theorem implicit_euler_standard_form (N : Numerics) (fes : FESpace) (G : Globals)
  (m mstar : SparseMatrix) (inv : InverseMatrix) (u u' : BaseVector) :
  assemble_mstar N fes (dt G) = Ok (a_mat G, m, mstar) ->
  Inverse mstar (FreeDofs fes) = Ok inv ->
  euler_update G (inv_mult inv) u = Ok u' ->
  (forall i, nth i (FreeDofs fes) true = false -> vnth u' i = vnth u i) /\
  (forall i, (i < ndof fes)%nat -> nth i (FreeDofs fes) false = true ->
     dot (row mstar i) u' = dot (row m i) u + dt G * vnth (f_vec G) i) /\
  (forall i, (i < ndof fes)%nat -> nth i (FreeDofs fes) false = true ->
     dot (row m i) u' + dt G * dot (row (a_mat G) i) u'
     = dot (row m i) u + dt G * vnth (f_vec G) i).
Proof.
  intros Hasm HI Hstep.
  destruct (assembled_shapes _ _ _ _ _ _ Hasm) as (Hah & Haw & Hmh & Hmw & Hsh & Hsw & Hent).
  destruct (euler_update_Ok _ _ _ _ Hstep) as (Au & r & delta & HAu & Hr & Hd & _ & -> & Hlen).
  destruct (Inverse_Ok _ _ _ HI) as (HM & HF & Hsq & Hfl).
  destruct (matvec_length _ _ _ HAu) as (Hul & HAul).
  destruct (vsub_length _ _ _ Hr) as (Hfl' & Hrl).
  rewrite vscale_length in Hrl. rewrite !vscale_length in Hfl'.
  pose proof (inv_mult_length _ _ _ _ _ HI Hd) as Hdl.
  assert (Hspec := inv_mult_spec inv r delta). rewrite HM, HF in Hspec.
  destruct (Hspec Hsq Hfl Hd) as (_ & Hzero & Hrows).
  assert (Hud : length u = length delta) by lia.
  assert (Hrow : forall i, row mstar i
                           = zipwith Qcplus (row m i) (vscale (dt G) (row (a_mat G) i))).
  { intros i. apply row_combination; [exact Hent|lia|lia]. }
  assert (Hmain : forall i, (i < ndof fes)%nat -> nth i (FreeDofs fes) false = true ->
            dot (row mstar i) (zipwith Qcplus u delta)
            = dot (row m i) u + dt G * vnth (f_vec G) i).
  { intros i Hi Hfree. rewrite dot_add_r by exact Hud.
    rewrite (Hrows i ltac:(lia) Hfree).
    rewrite (vsub_vnth _ _ _ _ Hr) by (rewrite vscale_length; lia).
    rewrite !vnth_vscale, (matvec_vnth _ _ _ _ HAu) by lia.
    rewrite Hrow, dot_add_l by (rewrite vscale_length, !row_length; lia).
    rewrite dot_vscale_l. ring. }
  split; [|split].
  - intros i Hi.
    assert (Hlt : (i < length u)%nat).
    { rewrite Hud, Hdl, Hsh, <- Hsh, <- Hfl.
      apply (nth_bit_in_range (FreeDofs fes) i false). exact Hi. }
    rewrite vnth_zipwith by assumption. rewrite (Hzero i Hi). ring.
  - exact Hmain.
  - intros i Hi Hfree. rewrite <- (Hmain i Hi Hfree).
    rewrite Hrow, dot_add_l by (rewrite vscale_length, !row_length; lia).
    rewrite dot_vscale_l. reflexivity.
Qed.

Lemma implicit_euler_standard_form_witness :
  dot (row toy_mstar 1) toy_u1
  = dot (row toy_m 1) toy_u0 + dt toy_G * vnth (f_vec toy_G) 1.
Proof.
  destruct (implicit_euler_standard_form toy_numerics toy_fes toy_G toy_m toy_mstar
              toy_inv toy_u0 toy_u1) as (_ & H & _).
  - vm_compute. reflexivity.
  - vm_compute. reflexivity.
  - vm_compute. reflexivity.
  - apply H; [vm_compute; lia|vm_compute; reflexivity].
Defined.

Lemma euler_update_steady G M freedofs inv (u : BaseVector) :
  Inverse M freedofs = Ok inv ->
  height (a_mat G) = height M -> width (a_mat G) = height M ->
  length (f_vec G) = height M -> length u = height M ->
  (forall i, (i < height M)%nat -> nth i freedofs false = true ->
     dot (row (a_mat G) i) u = vnth (f_vec G) i) ->
  euler_update G (inv_mult inv) u = Ok u.
Proof.
  intros HI Hah Haw Hf Hu Hsteady. unfold euler_update.
  rewrite (matvec_mscale _ _ _ _ (matvec_Ok (a_mat G) u ltac:(lia))). cbn [bind].
  rewrite vsub_Ok by (rewrite !vscale_length, length_map, length_seq; lia). cbn [bind].
  set (r := zipwith Qcminus _ _).
  assert (Hrl : length r = height M).
  { unfold r. rewrite zipwith_length; rewrite !vscale_length, ?length_map, ?length_seq; lia. }
  destruct (inv_mult_defined _ _ _ r HI Hrl) as (x & Hx). rewrite Hx. cbn [bind].
  assert (Hz : x = vzero (height M)).
  { apply (inv_mult_zero_on_free _ _ _ r x HI); [|exact Hx].
    intros i Hi Hfree. unfold r.
    rewrite vnth_zipwith
      by (rewrite !vscale_length, ?length_map, ?length_seq; lia).
    rewrite !vnth_vscale.
    rewrite (vnth_map_seq (fun i => dot (row (a_mat G) i) u)) by lia.
    rewrite (Hsteady i Hi Hfree). ring. }
  subst x. rewrite vadd_Ok by (rewrite vzero_length; exact Hu).
  rewrite zipwith_plus_vzero_r by exact Hu. reflexivity.
Qed.

(** X12. A steady state stays: if the vector [gfu.vec] satisfies
    [(A u)_i = f_i] on every free row, a time step returns it unchanged,
    and so [TimeStepping] returns with that vector in [gfu] and in every
    stored sample. *)
Theorem steady_state_preserved (N : Numerics) (G : Globals) (M : SparseMatrix)
  (freedofs : BitArray) (inv : InverseMatrix) (u : BaseVector) :
  Inverse M freedofs = Ok inv ->
  height (a_mat G) = height M -> width (a_mat G) = height M ->
  length (f_vec G) = height M -> length u = height M ->
  (forall i, (i < height M)%nat -> nth i freedofs false = true ->
     dot (row (a_mat G) i) u = vnth (f_vec G) i) ->
  euler_update G (inv_mult inv) u = Ok u /\
  forall t0 tend nsamples fuel s,
    TimeStepping N G (inv_mult inv) None t0 tend nsamples u fuel = Some (Ok s) ->
    gfu_vec s = u /\ Forall (fun w => w = u) (gfut s).
Proof.
  intros HI Hah Haw Hf Hu Hsteady.
  pose proof (euler_update_steady G M freedofs inv u HI Hah Haw Hf Hu Hsteady) as Hstep.
  split; [exact Hstep|].
  intros t0 tend nsamples fuel s H. unfold TimeStepping in H.
  destruct (sample_interval G tend nsamples) as [si|e]; [|discriminate].
  apply (while_invariant
           (fun s => gfu_vec s = u /\ Forall (fun w => w = u) (gfut s)) _ _) with (3 := H).
  - clear H. intros s1 s2 (Hg & Hall) _ Hb. unfold TimeStepping_body in Hb.
    rewrite Hg, Hstep in Hb. cbn [bind] in Hb.
    destruct (sampled (cnt s1) si) as [keep|e]; cbn [bind] in Hb; [|discriminate].
    inversion Hb; subst s2. cbn [gfu_vec gfut]. split; [reflexivity|].
    destruct keep; [|exact Hall].
    apply Forall_app. split; [exact Hall|]. constructor; [reflexivity|constructor].
  - cbn [gfu_vec gfut]. split; [reflexivity|]. constructor; [reflexivity|constructor].
Qed.

Lemma steady_state_preserved_witness :
  euler_update toy_G (inv_mult toy_inv) toy_u = Ok toy_u.
Proof.
  destruct (steady_state_preserved toy_numerics toy_G toy_mstar (FreeDofs toy_fes)
              toy_inv toy_u) as (H & _).
  - vm_compute. reflexivity.
  - vm_compute. reflexivity.
  - vm_compute. reflexivity.
  - vm_compute. reflexivity.
  - vm_compute. reflexivity.
  - intros [|[|[|i]]] Hi Hfree; vm_compute in Hfree |- *; try reflexivity;
      try discriminate. vm_compute in Hi. lia.
  - exact H.
Defined.

(** ** parabolic.ipynb: start times and outcomes *)







(** ** Dirichlet flags: regions separated by bars *)

Lemma split_bar_nonempty s : split_bar s <> [].
Proof.
  destruct s as [|c s]; simpl; [discriminate|].
  destruct (Ascii.eqb c "|"); [discriminate|].
  destruct (split_bar s); discriminate.
Qed.

Lemma split_bar_app p q :
  split_bar (String.append p (String "|" q)) = split_bar p ++ split_bar q.
Proof.
  induction p as [|c p IH]; [reflexivity|].
  cbn [String.append split_bar]. rewrite IH.
  destruct (Ascii.eqb c "|"); [reflexivity|].
  destruct (split_bar p) as [|h t] eqn:E; [|reflexivity].
  exfalso. apply (split_bar_nonempty p). exact E.
Qed.

Lemma existsb_orb {A} (f g : A -> bool) (l : list A) :
  existsb (fun x => f x || g x) l = existsb f l || existsb g l.
Proof.
  induction l as [|x l IH]; [reflexivity|]. simpl. rewrite IH.
  destruct (f x), (g x), (existsb f l), (existsb g l); reflexivity.
Qed.

Lemma existsb_pointwise {A} (f g : A -> bool) (l : list A) :
  (forall x, f x = g x) -> existsb f l = existsb g l.
Proof.
  intros H. induction l as [|x l IH]; [reflexivity|]. simpl. rewrite H, IH. reflexivity.
Qed.

Lemma region_match_union p q regions :
  region_match (Some (String.append p (String "|" q))) regions
  = region_match (Some p) regions || region_match (Some q) regions.
Proof.
  unfold region_match. rewrite split_bar_app, <- existsb_orb.
  apply existsb_pointwise. intros r. apply existsb_app.
Qed.

Lemma is_free_union p q bb d :
  is_free (Some (String.append p (String "|" q))) bb d
  = is_free (Some p) bb d && is_free (Some q) bb d.
Proof.
  unfold is_free. rewrite region_match_union.
  destruct (region_match (Some p) _), (region_match (Some q) _), (region_match bb _);
    reflexivity.
Qed.

Lemma H1_dof_is_free mesh order flag bb i d :
  nth_error (dofs (h1_table mesh order)) i = Some d ->
  dof_is_free (H1 mesh order flag bb) i = is_free flag bb d.
Proof.
  intros Hd. unfold dof_is_free, H1. cbn [FreeDofs].
  rewrite (nth_indep _ false (is_free flag bb d)).
  - rewrite map_nth. rewrite (nth_error_nth _ _ _ Hd). reflexivity.
  - rewrite length_map. apply nth_error_Some. congruence.
Qed.

Lemma constrained_dofs_In fes i :
  In i (constrained_dofs fes) <-> (i < ndof fes)%nat /\ dof_is_free fes i = false.
Proof.
  unfold constrained_dofs. rewrite filter_In, in_seq, negb_true_iff.
  split; intros (H1 & H2); split; auto; lia.
Qed.

(** X20. A dirichlet flag ["p|q"] constrains exactly the dofs that ["p"]
    or ["q"] constrain; the order of the names does not matter.  So the
    space of the Poisson tutorial (["bottom|right|top|left"]) is the
    space of the parabolic notebook (["bottom|right|left|top"]). *)
Theorem dirichlet_flag_union (mesh : Mesh) (order : nat) (p q : string)
  (bb : option string) :
  let both := H1 mesh order (Some (String.append p (String "|" q))) bb in
  FreeDofs both
  = zipwith andb (FreeDofs (H1 mesh order (Some p) bb))
                 (FreeDofs (H1 mesh order (Some q) bb)) /\
  H1 mesh order (Some (String.append q (String "|" p))) bb = both /\
  (forall i, In i (constrained_dofs both) <->
             In i (constrained_dofs (H1 mesh order (Some p) bb)) \/
             In i (constrained_dofs (H1 mesh order (Some q) bb))) /\
  poisson_fes mesh = parabolic_fes mesh.
Proof.
  intros both. split; [|split; [|split]].
  - unfold both, H1. cbn [FreeDofs]. rewrite zipwith_map.
    apply map_ext. intros d. apply is_free_union.
  - unfold both, H1. f_equal. apply map_ext. intros d.
    rewrite !is_free_union. apply andb_comm.
  - intros i. rewrite !constrained_dofs_In.
    change (ndof both) with (length (dofs (h1_table mesh order))).
    change (ndof (H1 mesh order (Some p) bb)) with (length (dofs (h1_table mesh order))).
    change (ndof (H1 mesh order (Some q) bb)) with (length (dofs (h1_table mesh order))).
    destruct (nth_error (dofs (h1_table mesh order)) i) as [d|] eqn:Hd.
    + unfold both. rewrite !(H1_dof_is_free _ _ _ _ _ _ Hd), is_free_union.
      assert (Hi : (i < length (dofs (h1_table mesh order)))%nat).
      { apply nth_error_Some. congruence. }
      rewrite andb_false_iff. tauto.
    + apply nth_error_None in Hd. split; [intros (H & _)|intros [(H & _)|(H & _)]]; lia.
  - unfold poisson_fes, parabolic_fes, H1. f_equal. apply map_ext. intros d.
    unfold is_free, region_match. f_equal. f_equal.
    apply existsb_pointwise. intros r.
    change (split_bar "bottom|right|top|left")
      with ["bottom"; "right"; "top"; "left"]%string.
    change (split_bar "bottom|right|left|top")
      with ["bottom"; "right"; "left"; "top"]%string.
    cbn [existsb].
    destruct (String.eqb r "bottom"), (String.eqb r "right"),
             (String.eqb r "top"), (String.eqb r "left"); reflexivity.
Qed.

(** ** Dirichlet tutorial: the whole computation *)



(** ** parabolic.ipynb: which states reach the VTK file *)






(** ** parabolic.ipynb: the loops in binary64 *)






(** *** Loops that count in binary64: [cnt += 1; time = cnt * dt] *)

Section Binary64Loop.
Variable d tend : PrimFloat.float.
Variable body : Binary64.TSState -> Result Binary64.TSState.

Hypothesis body_counts :
  forall s s', body s = Ok s' ->
    Binary64.cnt s' = (Binary64.cnt s + 1)%Z /\
    (Z.abs (Binary64.cnt s') < Binary64.int_limit)%Z /\
    Binary64.time s' = Binary64.PyFloat (Binary64.grid d (Binary64.cnt s')).



End Binary64Loop.





Lemma sample_interval_converts d tend nsamples si :
  Binary64.sample_interval d tend nsamples = Ok si ->
  exists tend_f, Binary64.to_float tend = Ok tend_f.
Proof.
  unfold Binary64.sample_interval. intros H.
  destruct (Binary64.to_float tend) as [t|e]; [eexists; reflexivity|discriminate].
Qed.


Lemma mod_abs_zero (c si : Z) :
  si <> 0%Z -> Z.eqb (c mod si) 0 = Z.eqb (c mod Z.abs si) 0.
Proof.
  intros Hsi.
  destruct (Z.eqb_spec (c mod si) 0) as [E|E], (Z.eqb_spec (c mod Z.abs si) 0) as [E'|E'];
    try reflexivity; exfalso.
  - apply E'. apply Z.mod_divide; [lia|]. apply Z.divide_abs_l.
    apply Z.mod_divide; assumption.
  - apply E. apply Z.mod_divide; [exact Hsi|]. apply Z.divide_abs_l.
    apply Z.mod_divide; [lia|exact E'].
Qed.

Lemma sampled_true_inv c si keep :
  sampled c si = Ok keep ->
  si <> 0%Z /\ keep = Z.eqb (c mod Z.abs si) 0.
Proof.
  unfold sampled. destruct (Z.eqb_spec si 0) as [E|E]; [discriminate|].
  intros H; inversion H. split; [exact E|]. apply mod_abs_zero. exact E.
Qed.

(** X13. [TimeStepping] stores the start vector and then one vector at
    every step whose counter (before the increment) is a multiple of
    [sample_int]: a run that returns after [cnt > 0] steps has a
    [sample_int] that is not zero and [1 + ceil(cnt / |sample_int|)]
    components in [gfut]. *)
Theorem TimeStepping_sample_count (N : Numerics) (G : Binary64.Globals)
  (invmstar : Operator) (initial_cond : option CF) (t0 tend : Binary64.Num)
  (nsamples si : Z) (gfu0 : BaseVector) (fuel : nat) (s : Binary64.TSState) :
  Binary64.sample_interval (Binary64.dt G) tend nsamples = Ok si ->
  Binary64.TimeStepping N G invmstar initial_cond t0 tend nsamples gfu0 fuel
  = Some (Ok s) ->
  (Binary64.cnt s = 0%Z /\ length (Binary64.gfut s) = 1%nat) \/
  (si <> 0%Z /\ (0 < Binary64.cnt s)%Z /\
   Z.of_nat (length (Binary64.gfut s))
   = (1 + (Binary64.cnt s + Z.abs si - 1) / Z.abs si)%Z).
Proof.
  intros Hsi H. unfold Binary64.TimeStepping in H. rewrite Hsi in H.
  destruct (Binary64.to_float tend) as [tend_f|e]; [|discriminate].
  set (L := fun s => Z.of_nat (length (Binary64.gfut s))).
  assert (Hinv : (Binary64.cnt s = 0%Z /\ L s = 1%Z) \/
                 (si <> 0%Z /\ (0 < Binary64.cnt s)%Z /\
                  ((L s - 2) * Z.abs si < Binary64.cnt s <= (L s - 1) * Z.abs si)%Z)).
  { apply (while_invariant
             (fun s => (Binary64.cnt s = 0%Z /\ L s = 1%Z) \/
                       (si <> 0%Z /\ (0 < Binary64.cnt s)%Z /\
                        ((L s - 2) * Z.abs si < Binary64.cnt s
                         <= (L s - 1) * Z.abs si)%Z)) _ _)
      with (3 := H); [|left; split; reflexivity].
    clear. intros s1 s2 Hs _ Hb. right. unfold Binary64.TimeStepping_body in Hb.
    destruct (euler_update _ invmstar _) as [u|e]; cbn [bind] in Hb; [|discriminate].
    destruct (sampled (Binary64.cnt s1) si) as [keep|e] eqn:Hk; cbn [bind] in Hb;
      [|discriminate].
    destruct (sampled_true_inv _ _ _ Hk) as (Hne & ->).
    destruct (Binary64.mul_int _ _) as [x|e]; cbn [bind] in Hb; [|discriminate].
    inversion Hb; subst s2; clear Hb. unfold L. cbn [Binary64.gfut Binary64.cnt].
    split; [exact Hne|].
    assert (Hd : (1 <= Z.abs si)%Z) by lia.
    destruct Hs as [(Hc & HL)|(_ & Hpos & HL)]; unfold L in HL.
    - rewrite Hc. rewrite Z.mod_0_l by lia. cbn [Z.eqb].
      rewrite length_app, Nat2Z.inj_add. cbn [length]. split; [lia|]. nia.
    - split; [lia|].
      destruct (Z.eqb_spec (Binary64.cnt s1 mod Z.abs si) 0) as [E|E].
      + rewrite length_app, Nat2Z.inj_add. cbn [length].
        apply Z.mod_divide in E; [|lia]. destruct E as (q & E).
        assert (Hq : (q = Z.of_nat (length (Binary64.gfut s1)) - 1)%Z) by nia.
        subst q. nia.
      + assert (Binary64.cnt s1
                <> (Z.of_nat (length (Binary64.gfut s1)) - 1) * Z.abs si)%Z.
        { intros E'. apply E. rewrite E'. apply Z.mod_mul. lia. }
        nia. }
  destruct Hinv as [(Hc & HL)|(Hne & Hpos & HL)]; unfold L in *.
  - left. split; [exact Hc|lia].
  - right. split; [exact Hne|]. split; [exact Hpos|].
    assert (Hd : (1 <= Z.abs si)%Z) by lia.
    assert (E : ((Binary64.cnt s + Z.abs si - 1) / Z.abs si
                 = Z.of_nat (length (Binary64.gfut s)) - 1)%Z).
    { symmetry.
      apply (Z.div_unique_pos _ _ _
               (Binary64.cnt s + Z.abs si - 1
                - (Z.of_nat (length (Binary64.gfut s)) - 1) * Z.abs si)); nia. }
    rewrite E. lia.
Qed.






Lemma TimeStepping_sample_count_witness :
  (Binary64.cnt toy_final64 = 0%Z /\ length (Binary64.gfut toy_final64) = 1%nat) \/
  (1 <> 0 /\ (0 < Binary64.cnt toy_final64)%Z /\
   Z.of_nat (length (Binary64.gfut toy_final64))
   = (1 + (Binary64.cnt toy_final64 + Z.abs 1 - 1) / Z.abs 1)%Z)%Z.
Proof.
  apply (TimeStepping_sample_count toy_numerics (toy_G64 (Binary64.ratio 1 4))
           (inv_mult (toy_inv64 (Binary64.ratio 1 4))) None
           (Binary64.PyInt 0) (Binary64.PyInt 2) 10 1 toy_u0 20 toy_final64).
  - vm_compute. reflexivity.
  - vm_compute. reflexivity.
Defined.


(** The notebook's own run: [dt = 0.001] and the defaults [t0 = 0],
    [tend = 2], [nsamples = 10] give [sample_int = 201], and 2000 is
    the first counter whose product with [dt] is not below
    [tend - 0.5 * dt]. *)
Example notebook_run_counts :
  Binary64.sample_interval (Binary64.ratio 1 1000) (Binary64.PyInt 2) 10 = Ok 201%Z /\
  forallb (fun k => PrimFloat.ltb (Binary64.grid (Binary64.ratio 1 1000) (Z.of_nat k))
                      (Binary64.bound (Binary64.ratio 1 1000) Binary64.two))
          (seq 1 1999) = true /\
  PrimFloat.ltb (Binary64.grid (Binary64.ratio 1 1000) 2000)
                (Binary64.bound (Binary64.ratio 1 1000) Binary64.two) = false.
Proof. vm_compute. repeat split. Qed.

(** The largest int that converts to a float, and the first that does
    not. *)
Example int_limit_is_sharp :
  PrimFloat.is_finite (Binary64.of_Z (Binary64.int_limit - 1)) = true /\
  PrimFloat.is_infinity (Binary64.of_Z Binary64.int_limit) = true.
Proof. vm_compute. split; reflexivity. Qed.

(** With [dt = 0.1], [tend = 0.3] and [nsamples = 3] the quotient
    [tend / dt / nsamples] rounds to a float below one: [sample_int] is
    1, the run makes three steps and [gfut] has four components. *)
Example sampling_follows_rounding :
  Binary64.sample_interval (Binary64.ratio 1 10) (Binary64.PyFloat (Binary64.ratio 3 10)) 3
  = Ok 1%Z /\
  exists s,
    Binary64.TimeStepping toy_numerics (toy_G64 (Binary64.ratio 1 10))
      (inv_mult (toy_inv64 (Binary64.ratio 1 10))) None
      (Binary64.PyInt 0) (Binary64.PyFloat (Binary64.ratio 3 10)) 3 toy_u0 20
    = Some (Ok s) /\
    Binary64.cnt s = 3%Z /\ length (Binary64.gfut s) = 4%nat.
Proof.
  split; [vm_compute; reflexivity|].
  eexists. split; [vm_compute; reflexivity|]. split; reflexivity.
Qed.
